(** * Game-directory reconciliation in lutris: scanner, path cache, missing-game tracker

    A shallow embedding of [lutris/scanners/lutris.py].  Python dictionaries
    are finite maps ([gmap]), Python sets are finite sets ([gset]), and code
    that raises, logs or writes the cache file runs in a small state-and-error
    monad [M] over an explicit [World].  What [json.load] returns from the
    cache file is a Python value of any JSON type ([json]), and the
    operations the module applies to it behave as Python's do on each type.
    Collaborators that live outside the module (the filesystem, [json], the
    catalog API, the installer interpreter, [slugify], [expanduser]) are the
    fields of a read-only environment [Env]. *)

From stdpp Require Import gmap strings list fin_maps.
From Stdlib Require Import Ascii Permutation SpecFloat.

Open Scope string_scope.
Open Scope list_scope.

#[local] Set Warnings "-clear-no-such-hyp".
#[local] Set Warnings "-register-all".

(** ** Python strings *)

Module Py.

(** [s.startswith(p)]. *)
Definition startswith (s p : string) : bool := String.prefix p s.

(** [s.endswith("/")], the only suffix test the module needs
    (inside [os.path.join]). *)
Fixpoint ends_with_sep (s : string) : bool :=
  match s with
  | EmptyString => false
  | String c EmptyString => Ascii.eqb c "/"%char
  | String _ rest => ends_with_sep rest
  end.

(** [sub in s] on strings. *)
Fixpoint contains (sub s : string) : bool :=
  String.prefix sub s ||
  match s with
  | EmptyString => false
  | String _ rest => contains sub rest
  end.

(** Truthiness of a string: [bool(s)]. *)
Definition truthy (s : string) : bool :=
  match s with EmptyString => false | _ => true end.

(** [s.replace(old, new)] for a non-empty [old]: occurrences are found left
    to right and do not overlap.  [skip] counts the characters of an
    occurrence that are still to be dropped. *)
Fixpoint replace_from (skip : nat) (old new s : string) : string :=
  match s with
  | EmptyString => EmptyString
  | String c rest =>
      match skip with
      | S k => replace_from k old new rest
      | O =>
          if String.prefix old s
          then new +:+ replace_from (String.length old - 1) old new rest
          else String c (replace_from 0 old new rest)
      end
  end.

Definition replace (s old new : string) : string := replace_from 0 old new s.

(** [posixpath.join(a, b)]. *)
Definition join (a b : string) : string :=
  if startswith b "/" then b
  else if negb (truthy a) || ends_with_sep a then a +:+ b
  else a +:+ "/" +:+ b.

(** [l.pop()] on a list: removes and returns the last item. *)
Fixpoint pop {A} (l : list A) : option (A * list A) :=
  match l with
  | [] => None
  | x :: rest =>
      match pop rest with
      | None => Some (x, [])
      | Some (y, rest') => Some (y, x :: rest')
      end
  end.

End Py.

(** ** Exceptions, log records, observable effects *)

Inductive exn :=
  | KeyError
  | IndexError
  | TypeError
  | AttributeError
  | OverflowError
  | RecursionError
  | UnicodeDecodeError
  | FileNotFoundError
  | NotADirectoryError
  | PermissionError
  | JSONDecodeError
  | MissingGameDependencyError.

(** Why [os.listdir] fails. *)
Inductive os_error := ENOENT | ENOTDIR | EACCES.

(** The [OSError] raised for it. *)
Definition OSError (errno : os_error) : exn :=
  match errno with
  | ENOENT => FileNotFoundError
  | ENOTDIR => NotADirectoryError
  | EACCES => PermissionError
  end.

(** A JSON document as [json.load] returns it: [None], a [bool], an [int],
    a [float] (an IEEE 754 number, [spec_float]), a [str], a [list], or a
    [dict] whose keys are [str]. *)
Inductive json :=
  | JNull
  | JBool (b : bool)
  | JInt (n : Z)
  | JFloat (x : spec_float)
  | JStr (s : string)
  | JList (items : list json)
  | JDict (members : gmap string json).

(** A Python [dict] from [str] to [str], as such a value. *)
Definition path_dict (data : gmap string string) : json := JDict (JStr <$> data).

Inductive log_level := DEBUG | INFO | WARNING | ERROR | EXCEPTION.

(** What a [%s] of a logging call is given. *)
Inductive log_arg :=
  | ArgStr (s : string)
  | ArgGame (game_id : string)
  | ArgConfig (game_id : string)
  | ArgExn (e : exn).

Record log_record := LogRecord {
  lr_level : log_level;
  lr_format : string;
  lr_args : list log_arg
}.

(** A value of a game's configuration: a string, or a list of strings (the
    ["files"] entry). *)
Inductive config_value :=
  | CStr (s : string)
  | CList (l : list string).

Record Game := {
  game_id : string;
  runner_name : string;
  directory : string;
  installed : bool;
  config : option (gmap string config_value)   (* [game.config.game_config] *)
}.

(** Installer documents: [installer["script"]["game"]["exe"]] and so on.  A
    [None] field is a missing key. *)
Record GameSection := {
  game_exe : option string;
  game_main_file : option string
}.

Record Script := {
  script_game : option GameSection;
  script_exe : option string
}.

Record Installer := {
  installer_script : option Script;
  installer_game_slug : string
}.

Record ApiGame := {
  api_slug : string;
  api_name : string;
  api_aliases : list string    (* the ["slug"] of every alias, in order *)
}.

(** Calls that leave the module. *)
Inductive event :=
  | EvInstall (installer : Installer) (game_folder : option string)
  | EvDownloadMedia (slug : string)
  | EvAsyncCall (initial_delay : nat)
  | EvSleep (seconds : nat)
  | EvFire.

(** The tracker object ([MissingGames]); [_check_game_ids] is [None] when
    no worker runs. *)
Record MissingGames := {
  missing_game_ids : gset string;
  _check_game_ids : option (gset string);
  _check_game_queue : list json;                (* ids; after [list(path_cache)], whatever it gave *)
  _check_all_games : bool;
  _changed : bool
}.

Record World := {
  cache_file : option string;                  (* text of game-paths.json, [None] when absent *)
  path_cache_memo : option json;               (* the value [@cache_single] keeps for [get_path_cache] *)
  log : list log_record;
  events : list event;
  MISSING_GAMES : MissingGames
}.

(** The collaborators outside the module. *)
Record Env := {
  path_exists : string → bool;                  (* [os.path.exists] of a [str] *)
  fd_open : Z → bool;                           (* [os.path.exists] of an [int]: the descriptor is open *)
  path_isdir : string → bool;                   (* [os.path.isdir] *)
  listdir : string → list string + os_error;    (* [os.listdir]; [inr]: it raises [OSError] *)
  expanduser : string → string;                 (* [os.path.expanduser] *)
  slugify : string → string;                    (* [lutris.util.strings.slugify] *)
  json_load : string → json + exn;              (* [json.load] of a file with these bytes; [inr]: it
                                                   raises, [JSONDecodeError] on malformed JSON,
                                                   [UnicodeDecodeError] on bytes that are not UTF-8 *)
  json_dump : json → string;                    (* [json.dump(_, _, indent=2)] *)
  get_games : list Game;                                (* rows of the games database *)
  get_api_games : list string → list ApiGame;
  get_game_installers : string → list Installer;
  script_interpreter : Installer → option exn           (* what [ScriptInterpreter(installer)] raises *)
}.

(** ** The state-and-error monad *)

Inductive result (A : Type) :=
  | Ok (a : A)
  | Raise (e : exn)
  | OutOfFuel.
Arguments Ok {A} a.
Arguments Raise {A} e.
Arguments OutOfFuel {A}.

Definition M (A : Type) : Type := World → result A * World.

Definition ret {A} (a : A) : M A := λ w, (Ok a, w).

Definition raise {A} (e : exn) : M A := λ w, (Raise e, w).

Definition bind {A B} (m : M A) (k : A → M B) : M B :=
  λ w, match m w with
       | (Ok a, w') => k a w'
       | (Raise e, w') => (Raise e, w')
       | (OutOfFuel, w') => (OutOfFuel, w')
       end.

(** [M] is a monad in stdpp's sense, which gives the notations
    [x ← m; k] and [m;; k]. *)
#[global] Instance M_ret : MRet M := @ret.
#[global] Instance M_bind : MBind M := λ A B k m, bind m k.

(** [try: body / except E: handler] for the exceptions selected by [catches]. *)
Definition try_except {A} (body : M A) (catches : exn → bool) (handler : exn → M A) : M A :=
  λ w, match body w with
       | (Raise e, w') => if catches e then handler e w' else (Raise e, w')
       | r => r
       end.

(** [try: body / finally: cleanup].  An exception of the cleanup replaces
    the one of the body. *)
Definition try_finally {A} (body : M A) (cleanup : M unit) : M A :=
  λ w, match body w with
       | (OutOfFuel, w') => (OutOfFuel, w')
       | (r, w') =>
           match cleanup w' with
           | (Ok _, w'') => (r, w'')
           | (Raise e, w'') => (Raise e, w'')
           | (OutOfFuel, w'') => (OutOfFuel, w'')
           end
       end.

Definition get_world : M World := λ w, (Ok w, w).
Definition get_tracker : M MissingGames := λ w, (Ok (MISSING_GAMES w), w).

Definition set_cache_file (f : option string) : M unit :=
  λ w, (Ok tt, {| cache_file := f; path_cache_memo := path_cache_memo w; log := log w;
                  events := events w; MISSING_GAMES := MISSING_GAMES w |}).

Definition set_path_cache_memo (c : option json) : M unit :=
  λ w, (Ok tt, {| cache_file := cache_file w; path_cache_memo := c; log := log w;
                  events := events w; MISSING_GAMES := MISSING_GAMES w |}).

Definition logger (lvl : log_level) (format : string) (args : list log_arg) : M unit :=
  λ w, (Ok tt, {| cache_file := cache_file w; path_cache_memo := path_cache_memo w;
                  log := log w ++ [LogRecord lvl format args];
                  events := events w; MISSING_GAMES := MISSING_GAMES w |}).

Definition emit (e : event) : M unit :=
  λ w, (Ok tt, {| cache_file := cache_file w; path_cache_memo := path_cache_memo w; log := log w;
                  events := events w ++ [e]; MISSING_GAMES := MISSING_GAMES w |}).

Definition set_tracker (t : MissingGames) : M unit :=
  λ w, (Ok tt, {| cache_file := cache_file w; path_cache_memo := path_cache_memo w; log := log w;
                  events := events w; MISSING_GAMES := t |}).

(** ** Operations on JSON values

    The cache functions and the tracker apply these to whatever
    [json.load] returned; on a value of the wrong type they raise as
    Python does. *)

(** Truthiness: [bool(v)]. *)
Definition json_truthy (v : json) : bool :=
  match v with
  | JNull => false
  | JBool b => b
  | JInt n => negb (Z.eqb n 0)
  | JFloat x => match x with S754_zero _ => false | _ => true end
  | JStr s => Py.truthy s
  | JList items => match items with [] => false | _ :: _ => true end
  | JDict members => negb (bool_decide (dom members = ∅))
  end.

(** Truthiness of a value that may be [None]. *)
Definition opt_json_truthy (o : option json) : bool :=
  match o with
  | Some v => json_truthy v
  | None => false
  end.

(** [key == v] for a [str] key. *)
Definition str_eq (key : string) (v : json) : bool :=
  match v with
  | JStr s => String.eqb key s
  | _ => false
  end.

(** The characters of a [str], each a [str] of length one. *)
Fixpoint characters (s : string) : list json :=
  match s with
  | EmptyString => []
  | String c rest => JStr (String c EmptyString) :: characters rest
  end.

(** [container.get(key)]: only a [dict] has the method; its keys are
    strings, so another hashable key finds nothing, and a [list] or a
    [dict] cannot be hashed. *)
Definition py_get (container key : json) : M (option json) :=
  match container with
  | JDict members =>
      match key with
      | JStr k => ret (members !! k)
      | JList _ | JDict _ => raise TypeError
      | _ => ret None
      end
  | _ => raise AttributeError
  end.

(** [list(container)]: the keys of a [dict], the items of a [list], the
    characters of a [str]. *)
Definition py_list (container : json) : M (list json) :=
  match container with
  | JDict members => ret (JStr <$> elements (dom members))
  | JList items => ret items
  | JStr s => ret (characters s)
  | _ => raise TypeError
  end.

(** [key in container] for a [str] key: a key of a [dict], an item of a
    [list], a substring of a [str]. *)
Definition py_contains (key : string) (container : json) : M bool :=
  match container with
  | JDict members => ret (bool_decide (key ∈ dom members))
  | JList items => ret (existsb (str_eq key) items)
  | JStr s => ret (Py.contains key s)
  | _ => raise TypeError
  end.

(** [container[key] = value] for a [str] key. *)
Definition py_setitem (container : json) (key : string) (value : json) : M json :=
  match container with
  | JDict members => ret (JDict (<[key := value]> members))
  | _ => raise TypeError
  end.

(** [del container[key]] for a [str] key. *)
Definition py_delitem (container : json) (key : string) : M json :=
  match container with
  | JDict members =>
      if bool_decide (key ∈ dom members) then ret (JDict (delete key members))
      else raise KeyError
  | _ => raise TypeError
  end.

(** ** Path derivation: [get_path_from_config] *)

Definition value_truthy (v : config_value) : bool :=
  match v with
  | CStr s => Py.truthy s
  | CList l => match l with [] => false | _ => true end
  end.

(** [path[0]]. *)
Definition first_item (v : config_value) : M config_value :=
  match v with
  | CStr (String c _) => ret (CStr (String c EmptyString))
  | CList (x :: _) => ret (CStr x)
  | _ => raise IndexError
  end.

(** ["." not in game_config["main_file"]]. *)
Definition has_no_dot (v : config_value) : bool :=
  match v with
  | CStr s => negb (Py.contains "." s)
  | CList l => negb (bool_decide ("." ∈ l))
  end.

Definition PATH_KEYS : list string :=
  ["exe"; "main_file"; "iso"; "rom"; "disk-a"; "path"; "files"].

Section PathDerivation.
Context (env : Env).

(** The [for key in [...]] loop; [Some path] is the [return path] inside it. *)
Fixpoint probe_keys (game : Game) (game_config : gmap string config_value)
    (keys : list string) : M (option string) :=
  match keys with
  | [] => ret None
  | key :: rest =>
      match game_config !! key with
      | Some value =>
          path ← (if String.eqb key "files" then first_item value else ret value);
          if value_truthy path then
            match path with
            | CStr p =>
                let p := expanduser env p in
                if negb (Py.startswith p "/")
                then ret (Some (Py.join (directory game) p))
                else ret (Some p)
            | CList _ => raise TypeError     (* [os.path.expanduser] of a list *)
            end
          else probe_keys game game_config rest
      | None => probe_keys game game_config rest
      end
  end.

Definition get_path_from_config (game : Game) : M string :=
  match config game with
  | None =>
      logger WARNING "Game %s has no configuration" [ArgGame (game_id game)];;
      ret ""
  | Some game_config =>
      if String.eqb (runner_name game) "mame" &&
         match game_config !! "main_file" with
         | Some main_file => has_no_dot main_file
         | None => false
         end
      then ret ""
      else
        found ← probe_keys game game_config PATH_KEYS;
        match found with
        | Some path => ret path
        | None =>
            logger WARNING "No path found in %s" [ArgConfig (game_id game)];;
            ret ""
        end
  end.

End PathDerivation.

(** ** The path cache *)

Definition is_JSONDecodeError (e : exn) : bool :=
  match e with JSONDecodeError => true | _ => false end.

Definition is_KeyError (e : exn) : bool :=
  match e with KeyError => true | _ => false end.

Definition is_MissingGameDependencyError (e : exn) : bool :=
  match e with MissingGameDependencyError => true | _ => false end.

(** [except Exception]. *)
Definition is_Exception (e : exn) : bool := true.

(** [os.path.exists(GAME_PATH_CACHE_PATH)]. *)
Definition cache_file_exists (w : World) : bool :=
  match cache_file w with Some _ => true | None => false end.

(** [open(GAME_PATH_CACHE_PATH, "w")]: the file is created or truncated. *)
Definition open_for_writing : M unit := set_cache_file (Some "").

(** [open(GAME_PATH_CACHE_PATH)]: the text of the file. *)
Definition open_for_reading : M string :=
  w ← get_world;
  match cache_file w with
  | Some text => mret text
  | None => raise FileNotFoundError
  end.

(** [get_path_cache.cache_clear()]. *)
Definition cache_clear : M unit := set_path_cache_memo None.

Section PathCache.
Context (env : Env).

(** [json.load(cache_file)]. *)
Definition load (text : string) : M json :=
  match json_load env text with
  | inl value => mret value
  | inr e => raise e
  end.

(** [json.dump(data, cache_file, indent=2)] on a file just opened with "w". *)
Definition dump (data : json) : M unit :=
  set_cache_file (Some (json_dump env data)).

Definition read_path_cache : M json :=
  text ← open_for_reading;
  try_except (load text) is_JSONDecodeError (λ _, mret (JDict ∅)).

(** Modelled from the spec: the decorator [cache_single] is defined in
    [lutris.util], outside this module; [getCached()] "returns the
    process-wide cached snapshot, lazily loading via [read()] on first
    use". *)
Definition get_path_cache : M json :=
  w ← get_world;
  match path_cache_memo w with
  | Some cached => mret cached
  | None =>
      data ← read_path_cache;
      set_path_cache_memo (Some data);;
      mret data
  end.

(** The loop of [get_game_paths] over the installed games. *)
Fixpoint get_game_paths_from (all_games : list Game) (game_paths : gmap string string)
    : M (gmap string string) :=
  match all_games with
  | [] => mret game_paths
  | game :: rest =>
      if String.eqb (runner_name game) "steam" || String.eqb (runner_name game) "web"
      then get_game_paths_from rest game_paths
      else
        path ← get_path_from_config env game;
        if negb (Py.truthy path)
        then get_game_paths_from rest game_paths
        else get_game_paths_from rest (<[game_id game := path]> game_paths)
  end.

Definition get_game_paths : M (gmap string string) :=
  get_game_paths_from (filter (λ g, installed g = true) (get_games env)) ∅.

Definition build_path_cache (recreate : bool) : M unit :=
  w ← get_world;
  if cache_file_exists w && negb recreate then mret tt
  else
    open_for_writing;;
    game_paths ← get_game_paths;
    dump (path_dict game_paths);;
    cache_clear;;
    logger DEBUG "Game path cache built in %0.2f seconds" [].

Definition add_to_path_cache (game : Game) : M unit :=
  logger DEBUG "Adding %s to path cache" [ArgGame (game_id game)];;
  path ← get_path_from_config env game;
  if negb (Py.truthy path) then
    logger WARNING "No path for %s" [ArgGame (game_id game)]
  else
    current_cache ← read_path_cache;
    current_cache ← py_setitem current_cache (game_id game) (JStr path);
    open_for_writing;;
    dump current_cache;;
    cache_clear.

Definition remove_from_path_cache (game : Game) : M unit :=
  logger DEBUG "Removing %s from path cache" [ArgGame (game_id game)];;
  current_cache ← read_path_cache;
  cached ← py_contains (game_id game) current_cache;
  if negb cached then
    logger WARNING "Game %s (id=%s) not in cache path"
      [ArgGame (game_id game); ArgStr (game_id game)]
  else
    current_cache ← py_delitem current_cache (game_id game);
    open_for_writing;;
    dump current_cache;;
    cache_clear.

End PathCache.

(** ** The directory scanner *)

(** [d[key]] on a document. *)
Definition getitem {A} (field : option A) : M A :=
  match field with
  | Some a => mret a
  | None => raise KeyError
  end.

(** Truthiness of what [dict.get] returns. *)
Definition opt_truthy (o : option string) : bool :=
  match o with
  | Some s => Py.truthy s
  | None => false
  end.

(** [os.path.join(game_folder, exe_path)], where [game_folder] may be [None]. *)
Definition os_path_join (game_folder : option string) (exe_path : string) : M string :=
  match game_folder with
  | Some folder => mret (Py.join folder exe_path)
  | None => raise TypeError
  end.

Definition download_lutris_media (slug : string) : M unit :=
  emit (EvDownloadMedia slug).

Section Scanner.
Context (env : Env).

(** [os.listdir(dirname)]. *)
Definition os_listdir (dirname : string) : M (list string) :=
  match listdir env dirname with
  | inl folders => mret folders
  | inr errno => raise (OSError errno)
  end.

(** The [for folder in folders] loop of [get_game_slugs_and_folders]. *)
Definition collect_game_folders (dirname : string) (folders : list string)
    : gmap string string :=
  foldl (λ game_folders folder,
           if negb (path_isdir env (Py.join dirname folder)) then game_folders
           else <[slugify env folder := folder]> game_folders)
        ∅ folders.

Definition get_game_slugs_and_folders (dirname : string) : M (gmap string string) :=
  folders ← os_listdir dirname;
  mret (collect_game_folders dirname folders).

(** The [for alias in api_game["aliases"]] loop of [find_game_folder]. *)
Fixpoint find_alias_folder (dirname : string) (aliases : list string)
    (slugs_map : gmap string string) : option string :=
  match aliases with
  | [] => None
  | alias :: rest =>
      match slugs_map !! alias with
      | Some folder =>
          let game_folder := Py.join dirname folder in
          if path_exists env game_folder then Some game_folder
          else find_alias_folder dirname rest slugs_map
      | None => find_alias_folder dirname rest slugs_map
      end
  end.

Definition find_game_folder (dirname : string) (api_game : ApiGame)
    (slugs_map : gmap string string) : option string :=
  match slugs_map !! api_slug api_game with
  | Some folder =>
      let game_folder := Py.join dirname folder in
      if path_exists env game_folder then Some game_folder
      else find_alias_folder dirname (api_aliases api_game) slugs_map
  | None => find_alias_folder dirname (api_aliases api_game) slugs_map
  end.

Definition detect_game_from_installer (game_folder : option string)
    (installer : Installer) : M (option string) :=
  exe_path ← try_except
               (script ← getitem (installer_script installer);
                game ← getitem (script_game script);
                mret (game_exe game))
               is_KeyError
               (λ _, script ← getitem (installer_script installer);
                     mret (script_exe script));
  exe_path ← (if negb (opt_truthy exe_path) then
                try_except
                  (script ← getitem (installer_script installer);
                   game ← getitem (script_game script);
                   mret (game_main_file game))
                  is_KeyError
                  (λ _, mret exe_path)
              else mret exe_path);
  match exe_path with
  | Some exe_path =>
      if negb (Py.truthy exe_path) then mret None
      else
        let exe_path := Py.replace exe_path "$GAMEDIR/" "" in
        full_path ← os_path_join game_folder exe_path;
        if path_exists env full_path then mret (Some full_path) else mret None
  | None => mret None
  end.

(** The [for installer in installers] loop of [find_game]. *)
Fixpoint find_game_in (game_folder : option string) (installers : list Installer)
    : M (option (string * Installer)) :=
  match installers with
  | [] => mret None
  | installer :: rest =>
      full_path ← detect_game_from_installer game_folder installer;
      if opt_truthy full_path
      then mret (Some (default "" full_path, installer))
      else find_game_in game_folder rest
  end.

Definition find_game (game_folder : option string) (api_game : ApiGame)
    : M (option (string * Installer)) :=
  find_game_in game_folder (get_game_installers env (api_slug api_game)).

Definition get_used_directories : gset string :=
  foldl (λ directories game,
           if Py.truthy (directory game) then directories ∪ {[directory game]}
           else directories)
        ∅ (get_games env).

Definition install_game (installer : Installer) (game_folder : option string) : M unit :=
  match script_interpreter env installer with
  | Some e => raise e
  | None => emit (EvInstall installer game_folder)
  end.

(** [game_folder in directories]. *)
Definition folder_in (game_folder : option string) (directories : gset string) : bool :=
  match game_folder with
  | Some folder => bool_decide (folder ∈ directories)
  | None => false
  end.

(** The [for api_game in api_games] loop of [scan_directory]; the result
    is [slugs_installed]. *)
Fixpoint scan_api_games (dirname : string) (slugs_map : gmap string string)
    (directories : gset string) (api_games : list ApiGame)
    (slugs_seen slugs_installed : gset string) : M (gset string) :=
  match api_games with
  | [] => mret slugs_installed
  | api_game :: rest =>
      if bool_decide (api_slug api_game ∈ slugs_seen)
      then scan_api_games dirname slugs_map directories rest slugs_seen slugs_installed
      else
        let slugs_seen := slugs_seen ∪ {[api_slug api_game]} in
        let game_folder := find_game_folder dirname api_game slugs_map in
        if folder_in game_folder directories
        then scan_api_games dirname slugs_map directories rest slugs_seen
               (slugs_installed ∪ {[api_slug api_game]})
        else
          found ← find_game game_folder api_game;
          match found with
          | Some (full_path, installer) =>
              logger INFO "Found %s in %s" [ArgStr (api_name api_game); ArgStr full_path];;
              try_except
                (install_game installer game_folder)
                is_MissingGameDependencyError
                (λ ex, logger ERROR "Skipped %s: %s" [ArgStr (api_name api_game); ArgExn ex]);;
              download_lutris_media (installer_game_slug installer);;
              scan_api_games dirname slugs_map directories rest slugs_seen
                (slugs_installed ∪ {[api_slug api_game]})
          | None =>
              scan_api_games dirname slugs_map directories rest slugs_seen slugs_installed
          end
  end.

Definition scan_directory (dirname : string)
    : M (gmap string string * gmap string string) :=
  slugs_map ← get_game_slugs_and_folders dirname;
  let directories := get_used_directories in
  let api_games := get_api_games env (elements (dom slugs_map)) in
  slugs_installed ← scan_api_games dirname slugs_map directories api_games ∅ ∅;
  let installed_map := filter (λ kv, kv.1 ∈ slugs_installed) slugs_map in
  let missing_map := filter (λ kv, kv.1 ∉ slugs_installed) slugs_map in
  mret (installed_map, missing_map).

End Scanner.

(** ** The missing-game tracker *)

Definition CHECK_STALL : nat := 3.

(** [MissingGames.__init__]. *)
Definition MissingGames_init : MissingGames :=
  {| missing_game_ids := ∅; _check_game_ids := None; _check_game_queue := [];
     _check_all_games := false; _changed := false |}.

Definition set_missing_game_ids (ids : gset string) : M unit :=
  self ← get_tracker;
  set_tracker {| missing_game_ids := ids; _check_game_ids := _check_game_ids self;
                 _check_game_queue := _check_game_queue self;
                 _check_all_games := _check_all_games self; _changed := _changed self |}.

Definition set_check_game_ids (ids : option (gset string)) : M unit :=
  self ← get_tracker;
  set_tracker {| missing_game_ids := missing_game_ids self; _check_game_ids := ids;
                 _check_game_queue := _check_game_queue self;
                 _check_all_games := _check_all_games self; _changed := _changed self |}.

Definition set_check_game_queue (queue : list json) : M unit :=
  self ← get_tracker;
  set_tracker {| missing_game_ids := missing_game_ids self;
                 _check_game_ids := _check_game_ids self; _check_game_queue := queue;
                 _check_all_games := _check_all_games self; _changed := _changed self |}.

Definition set_check_all_games (b : bool) : M unit :=
  self ← get_tracker;
  set_tracker {| missing_game_ids := missing_game_ids self;
                 _check_game_ids := _check_game_ids self;
                 _check_game_queue := _check_game_queue self;
                 _check_all_games := b; _changed := _changed self |}.

Definition set_changed (b : bool) : M unit :=
  self ← get_tracker;
  set_tracker {| missing_game_ids := missing_game_ids self;
                 _check_game_ids := _check_game_ids self;
                 _check_game_queue := _check_game_queue self;
                 _check_all_games := _check_all_games self; _changed := b |}.

(** Truthiness of [self._check_game_ids]: neither [None] nor empty. *)
Definition ids_truthy (ids : option (gset string)) : bool :=
  match ids with
  | Some s => negb (bool_decide (s = ∅))
  | None => false
  end.

(** Truthiness of [self._check_game_queue]. *)
Definition queue_truthy (queue : list json) : bool :=
  match queue with
  | [] => false
  | _ :: _ => true
  end.

(** Truthiness of the [game_ids] argument of [update_missing]. *)
Definition game_ids_truthy (game_ids : option (list string)) : bool :=
  match game_ids with
  | Some (_ :: _) => true
  | _ => false
  end.

(** [self._check_game_ids.clear()]. *)
Definition check_game_ids_clear : M unit :=
  self ← get_tracker;
  match _check_game_ids self with
  | Some _ => set_check_game_ids (Some ∅)
  | None => raise AttributeError
  end.

(** [self._check_game_ids |= set(game_ids)]. *)
Definition check_game_ids_update (game_ids : list string) : M unit :=
  self ← get_tracker;
  match _check_game_ids self with
  | Some ids => set_check_game_ids (Some (ids ∪ list_to_set game_ids))
  | None => raise TypeError
  end.

Definition sleep (seconds : nat) : M unit := emit (EvSleep seconds).

(** [AsyncCall(self._fetch, None, initial_delay)]: the worker is handed to
    another thread; the pass itself is [_fetch] below. *)
Definition AsyncCall_fetch (initial_delay : nat) : M unit :=
  emit (EvAsyncCall initial_delay).

Definition update_missing (game_ids : option (list string)) : M unit :=
  self ← get_tracker;
  let start_fetch := bool_decide (_check_game_ids self = None) in
  (if negb (ids_truthy (_check_game_ids self))
   then set_check_game_ids (Some ∅) else mret tt);;
  (if game_ids_truthy game_ids
   then check_game_ids_update (default [] game_ids) else mret tt);;
  if start_fetch then
    let initial_delay := if game_ids_truthy game_ids then CHECK_STALL else 0 in
    AsyncCall_fetch initial_delay
  else mret tt.

Definition update_all_missing : M unit :=
  set_check_all_games true;;
  update_missing None.

Definition _notify_changed : M unit :=
  self ← get_tracker;
  if _changed self then
    set_changed false;;
    emit EvFire
  else mret tt.

(** The largest and the smallest C [int]. *)
Definition INT_MAX : Z := 2147483647.
Definition INT_MIN : Z := -2147483648.

Section Tracker.
Context (env : Env).

(** [os.path.exists(path)] on a value: a [str] is a path; an [int] (a
    [bool] is one) is a file descriptor, and must fit a C [int]; any other
    value is a TypeError. *)
Definition os_path_exists (path : json) : M bool :=
  match path with
  | JStr p => mret (path_exists env p)
  | JBool b => mret (fd_open env (if b then 1 else 0)%Z)
  | JInt n =>
      if (Z.leb INT_MIN n && Z.leb n INT_MAX)%bool then mret (fd_open env n)
      else raise OverflowError
  | _ => raise TypeError
  end.

Definition _next_game_id : M (option json) :=
  self ← get_tracker;
  (if _check_all_games self then
     set_check_all_games false;;
     path_cache ← get_path_cache env;
     queue ← py_list path_cache;
     set_check_game_queue queue;;
     check_game_ids_clear
   else mret tt);;
  self ← get_tracker;
  (if negb (queue_truthy (_check_game_queue self)) && ids_truthy (_check_game_ids self) then
     _notify_changed;;
     sleep CHECK_STALL;;
     set_check_game_queue (JStr <$> elements (default ∅ (_check_game_ids self)));;
     check_game_ids_clear
   else mret tt);;
  self ← get_tracker;
  match Py.pop (_check_game_queue self) with
  | Some (game_id, queue) =>
      set_check_game_queue queue;;
      mret (Some game_id)
  | None => mret None
  end.

(** The body of the [while True] loop of [_fetch] for one game id.  The
    lookup finds a path only for a [str] id (see [py_get]), so the tests
    on [missing_game_ids], a set of [str], are written for such an id. *)
Definition check_game_id (game_id : json) : M unit :=
  path_cache ← get_path_cache env;
  path ← py_get path_cache game_id;
  match game_id with
  | JStr game_id =>
      if opt_json_truthy path then
        found ← os_path_exists (default JNull path);
        self ← get_tracker;
        if (found : bool) then
          if bool_decide (game_id ∈ missing_game_ids self) then
            set_missing_game_ids (missing_game_ids self ∖ {[game_id]});;
            set_changed true
          else mret tt
        else if bool_decide (game_id ∉ missing_game_ids self) then
          set_missing_game_ids (missing_game_ids self ∪ {[game_id]});;
          set_changed true
        else mret tt
      else mret tt
  | _ => mret tt
  end.

(** The [while True] loop; [fuel] bounds the number of iterations. *)
Fixpoint _fetch_loop (fuel : nat) : M unit :=
  match fuel with
  | O => λ w, (OutOfFuel, w)
  | S fuel =>
      game_id ← _next_game_id;
      if negb (opt_json_truthy game_id) then mret tt
      else
        check_game_id (default JNull game_id);;
        _fetch_loop fuel
  end.

Definition _fetch (fuel : nat) (initial_delay : nat) : M unit :=
  sleep initial_delay;;
  logger DEBUG "Checking for missing games" [];;
  try_finally
    (try_except (_fetch_loop fuel) is_Exception
       (λ ex, logger EXCEPTION "Unable to detect missing games: %s" [ArgExn ex]))
    (set_check_game_ids None;;
     _notify_changed).

(** The number of items [list(v)] has. *)
Definition iterable_length (v : json) : nat :=
  match v with
  | JDict members => size members
  | JList items => length items
  | JStr s => String.length s
  | _ => 0
  end.

(** The number of ids a full check queues in [w]: the items of what
    [get_path_cache] returns. *)
Definition cache_size (w : World) : nat :=
  match path_cache_memo w with
  | Some cached => iterable_length cached
  | None =>
      match cache_file w with
      | Some text =>
          match json_load env text with
          | inl value => iterable_length value
          | inr _ => 0
          end
      | None => 0
      end
  end.

(** The number of ids a pass that starts in [w] pops at most: the items of
    the path cache when a full check is requested, the queue and the
    pending set otherwise. *)
Definition pass_length (w : World) : nat :=
  let self := MISSING_GAMES w in
  if _check_all_games self then cache_size w
  else length (_check_game_queue self) + size (default ∅ (_check_game_ids self)).

End Tracker.

(** ** Vocabulary of the statements *)

(** [key] gives the loop of [get_path_from_config] nothing: it is absent, or
    its value is empty. *)
Definition no_value (game_config : gmap string config_value) (key : string) : Prop :=
  game_config !! key = None ∨
  ∃ value, game_config !! key = Some value ∧ value_truthy value = false.

(** The loop passes over [key]. *)
Definition passed_over (game_config : gmap string config_value) (key : string) : Prop :=
  (key ≠ "files" ∧ no_value game_config key) ∨
  (key = "files" ∧
   (game_config !! key = None ∨ ∃ rest, game_config !! key = Some (CList ("" :: rest)))).


(** The game is run by MAME and its main file is an id without extension. *)
Definition identifier_only (game : Game) (game_config : gmap string config_value) : Prop :=
  runner_name game = "mame" ∧
  ∃ main_file, game_config !! "main_file" = Some main_file ∧ has_no_dot main_file = true.


(** The configurations of claim C10: nothing under the five file keys, no
    ["path"], and an empty ["files"] list. *)
Definition only_empty_files (game_config : gmap string config_value) : Prop :=
  Forall (no_value game_config) ["exe"; "main_file"; "iso"; "rom"; "disk-a"] ∧
  game_config !! "path" = None ∧
  game_config !! "files" = Some (CList []).

(** The executable an installer names, in the order the code consults the
    document: with a game section, its exe and then its main_file; the
    top-level exe only without a game section. *)
Definition installer_candidate (script : Script) : option string :=
  match script_game script with
  | Some game => if opt_truthy (game_exe game) then game_exe game else game_main_file game
  | None => script_exe script
  end.

(** The first non-empty entry. *)
Fixpoint first_truthy (candidates : list (option string)) : option string :=
  match candidates with
  | [] => None
  | candidate :: rest => if opt_truthy candidate then candidate else first_truthy rest
  end.

(** [s] without the prefix [p], when it has it. *)
Definition strip_prefix (p s : string) : string :=
  if Py.startswith s p
  then String.substring (String.length p) (String.length s - String.length p) s
  else s.

(** [deriveExeFromInstaller] as the specification words it (claim C6): the
    game section's exe, then the top-level exe, then the game section's
    main_file; the placeholder stripped as a prefix; the joined path when it
    exists. *)
Definition deriveExeFromInstaller_as_specified (env : Env) (folder : string)
    (installer : Installer) : option string :=
  script ← installer_script installer;
  exe ← first_truthy [script_game script ≫= game_exe;
                      script_exe script;
                      script_game script ≫= game_main_file];
  let full_path := Py.join folder (strip_prefix "$GAMEDIR/" exe) in
  if path_exists env full_path then Some full_path else None.

(** What [read_path_cache] makes of a file holding [text]: the document,
    the empty mapping for malformed JSON, and nothing when [json.load]
    raises another exception. *)
Definition parsed (env : Env) (text : string) : option json :=
  match json_load env text with
  | inl value => Some value
  | inr e => if is_JSONDecodeError e then Some (JDict ∅) else None
  end.

(** [get_path_cache] returns the mapping [cache] of ids to paths in [w]:
    it is the memoized value, or else what the cache file holds. *)
Definition sees (env : Env) (w : World) (cache : gmap string string) : Prop :=
  match path_cache_memo w with
  | Some cached => cached = path_dict cache
  | None => ∃ text, cache_file w = Some text ∧ parsed env text = Some (path_dict cache)
  end.

(** The cache has a path for the game, and it exists on disk. *)
Definition path_present (env : Env) (cache : gmap string string) (game_id : string) : Prop :=
  ∃ path, cache !! game_id = Some path ∧ path ≠ "" ∧ path_exists env path = true.

(** The cache has a path for the game, and it does not exist on disk. *)
Definition path_gone (env : Env) (cache : gmap string string) (game_id : string) : Prop :=
  ∃ path, cache !! game_id = Some path ∧ path ≠ "" ∧ path_exists env path = false.

(** What checking one id does to [missing_game_ids] and [_changed]. *)
Definition checked (env : Env) (cache : gmap string string) (game_id : string)
    (state : gset string * bool) : gset string * bool :=
  match cache !! game_id with
  | Some path =>
      if Py.truthy path then
        if path_exists env path then
          if bool_decide (game_id ∈ state.1) then (state.1 ∖ {[game_id]}, true) else state
        else
          if bool_decide (game_id ∉ state.1) then (state.1 ∪ {[game_id]}, true) else state
      else state
  | None => state
  end.

(** The tracker after one id was checked. *)
Definition tracker_checked (env : Env) (cache : gmap string string) (game_id : string)
    (self : MissingGames) : MissingGames :=
  let state := checked env cache game_id (missing_game_ids self, _changed self) in
  {| missing_game_ids := state.1; _check_game_ids := _check_game_ids self;
     _check_game_queue := _check_game_queue self;
     _check_all_games := _check_all_games self; _changed := state.2 |}.

(** [w'] has the cache file, the log and the events of [w]. *)
Definition same_files (w w' : World) : Prop :=
  cache_file w' = cache_file w ∧ log w' = log w ∧ events w' = events w.

(** The world in which [_fetch] enters its [try] block: the initial delay
    has been slept and the debug line logged. *)
Definition fetch_start (initial_delay : nat) (w : World) : World :=
  {| cache_file := cache_file w; path_cache_memo := path_cache_memo w;
     log := log w ++ [LogRecord DEBUG "Checking for missing games" []];
     events := events w ++ [EvSleep initial_delay];
     MISSING_GAMES := MISSING_GAMES w |}.

(** The tracker at rest: no worker, nothing queued, no change unreported. *)
Definition idle (missing : gset string) : MissingGames :=
  {| missing_game_ids := missing; _check_game_ids := None; _check_game_queue := [];
     _check_all_games := false; _changed := false |}.

(** [json.load] gives back what [json.dump] wrote for [data]. *)
Definition round_trips (env : Env) (data : json) : Prop :=
  json_load env (json_dump env data) = inl data.

(** [log] extended by some records. *)
Definition add_log (records : list log_record) (w : World) : World :=
  {| cache_file := cache_file w; path_cache_memo := path_cache_memo w;
     log := log w ++ records; events := events w; MISSING_GAMES := MISSING_GAMES w |}.

(** ** Vocabulary of the further properties *)

(** [folder] is a directory under [dirname]. *)
Definition is_game_folder (env : Env) (dirname folder : string) : Prop :=
  path_isdir env (Py.join dirname folder) = true.

(** The slug names no folder of the map that exists on disk. *)
Definition candidate_fails (env : Env) (dirname : string) (slugs_map : gmap string string)
    (slug : string) : Prop :=
  ∀ folder, slugs_map !! slug = Some folder → path_exists env (Py.join dirname folder) = false.

(** The slug names a folder of the map that exists on disk, [game_folder]. *)
Definition candidate_finds (env : Env) (dirname : string) (slugs_map : gmap string string)
    (slug game_folder : string) : Prop :=
  ∃ folder, slugs_map !! slug = Some folder ∧ game_folder = Py.join dirname folder ∧
            path_exists env game_folder = true.

(** [w'] has the cache file, the snapshot and the tracker of [w]. *)
Definition same_cache_and_tracker (w w' : World) : Prop :=
  cache_file w' = cache_file w ∧ path_cache_memo w' = path_cache_memo w ∧
  MISSING_GAMES w' = MISSING_GAMES w.

(** What [detect_game_from_installer] returns, in any world. *)
Definition detects (env : Env) (game_folder : option string) (installer : Installer)
    (r : result (option string)) : Prop :=
  ∀ w, detect_game_from_installer env game_folder installer w = (r, w).

(** The installer does not give an executable in the folder. *)
Definition no_match (env : Env) (game_folder : option string) (installer : Installer) : Prop :=
  ∃ full_path, detects env game_folder installer (Ok full_path) ∧ opt_truthy full_path = false.

(** An event a scan may emit: a media download, or the installation of an
    installer whose executable was found in a folder that no installed game
    uses. *)
Definition scan_event (env : Env) (directories : gset string) (ev : event) : Prop :=
  match ev with
  | EvInstall installer game_folder =>
      ∃ folder full_path,
        game_folder = Some folder ∧ (folder ∉ directories) ∧
        detects env game_folder installer (Ok (Some full_path)) ∧
        path_exists env full_path = true
  | EvDownloadMedia _ => True
  | _ => False
  end.

(** The catalog entries a scan works on, for the slug map of its root. *)
Definition scanned_api_games (env : Env) (slugs_map : gmap string string) : list ApiGame :=
  get_api_games env (elements (dom slugs_map)).

(** [get_path_from_config] gives [path] for the game, in any world. *)
Definition derives (env : Env) (game : Game) (path : string) : Prop :=
  ∀ w, (get_path_from_config env game w).1 = Ok path.

(** A game [get_game_paths] records under [path]: installed, not run by
    steam or web, with a non-empty derived path. *)
Definition cacheable (env : Env) (game : Game) (path : string) : Prop :=
  installed game = true ∧ runner_name game ≠ "steam" ∧ runner_name game ≠ "web" ∧
  derives env game path ∧ path ≠ "".

(** The cache file of [w] holds the mapping [data], as [read_path_cache]
    returns it: a JSON object with these members, or, for the empty
    mapping, malformed JSON. *)
Definition stored (env : Env) (w : World) (data : gmap string json) : Prop :=
  ∃ text, cache_file w = Some text ∧ parsed env text = Some (JDict data).

(** The missing set and the change flag after the ids of [queue] were
    checked (last item first) against [cache]. *)
Definition checked_all (env : Env) (cache : gmap string string) (queue : list string)
    (state : gset string * bool) : gset string * bool :=
  foldr (checked env cache) state queue.

(** What a pass may do to the missing set: an id enters it only if its
    cached path is gone, and leaves it only if its cached path exists. *)
Definition pass_sound (env : Env) (cache : gmap string string)
    (missing missing' : gset string) : Prop :=
  ∀ game_id,
    (game_id ∈ missing' → game_id ∈ missing ∨ path_gone env cache game_id) ∧
    (game_id ∈ missing → game_id ∈ missing' ∨ path_present env cache game_id).

(** The tracker in the middle of a pass, with the ids of [queue] queued. *)
Definition draining (missing : gset string) (pending : gset string) (queue : list string)
    (changed : bool) : MissingGames :=
  {| missing_game_ids := missing; _check_game_ids := Some pending;
     _check_game_queue := JStr <$> queue; _check_all_games := false; _changed := changed |}.

#[global] Arguments ids_truthy : simpl never.
#[global] Arguments checked : simpl never.
#[global] Arguments get_path_cache : simpl never.
#[global] Arguments check_game_id : simpl never.
#[local] Arguments size : simpl never.

(** ** A concrete environment

    A small filesystem, a two-game library, a one-entry catalog and a JSON
    codec for flat objects of strings and for the empty list, used to run
    the definitions. *)

Module Demo.

(** The double quote. *)
Definition dquote : ascii := Ascii.ascii_of_nat 34.

(** Writing: [json.dumps] of a string, for the two escapes that matter
    in paths. *)
Fixpoint escape (s : string) : string :=
  match s with
  | EmptyString => EmptyString
  | String c rest =>
      if Ascii.eqb c dquote || Ascii.eqb c "\"%char
      then String "\"%char (String c (escape rest))
      else String c (escape rest)
  end.

Definition quote (s : string) : string :=
  String dquote (escape s +:+ String dquote EmptyString).

Definition newline : string := String (Ascii.ascii_of_nat 10) EmptyString.

(** A member value: a string, anything else is written as [null]. *)
Definition dump_value (v : json) : string :=
  match v with
  | JStr s => quote s
  | _ => "null"
  end.

Fixpoint dump_items (items : list (string * json)) : string :=
  match items with
  | [] => EmptyString
  | [(k, v)] => "  " +:+ quote k +:+ ": " +:+ dump_value v +:+ newline
  | (k, v) :: rest =>
      "  " +:+ quote k +:+ ": " +:+ dump_value v +:+ "," +:+ newline +:+ dump_items rest
  end.

(** What the codec writes: an object, the empty list, and [null] for the
    values it does not cover. *)
Definition dumps (data : json) : string :=
  match data with
  | JDict members =>
      match map_to_list members with
      | [] => "{}"
      | items => "{" +:+ newline +:+ dump_items items +:+ "}"
      end
  | JList [] => "[]"
  | other => dump_value other
  end.

(** Reading. *)
Definition is_space (c : ascii) : bool :=
  Ascii.eqb c " "%char || Ascii.eqb c (Ascii.ascii_of_nat 10) ||
  Ascii.eqb c (Ascii.ascii_of_nat 13) || Ascii.eqb c (Ascii.ascii_of_nat 9).

Fixpoint skip_spaces (s : string) : string :=
  match s with
  | String c rest => if is_space c then skip_spaces rest else s
  | EmptyString => EmptyString
  end.

(** The characters of a string literal after its opening quote, and what
    follows the closing quote. *)
Fixpoint string_body (s : string) : option (string * string) :=
  match s with
  | EmptyString => None
  | String c rest =>
      if Ascii.eqb c dquote then Some (EmptyString, rest)
      else if Ascii.eqb c "\"%char then
        match rest with
        | String d rest' =>
            if Ascii.eqb d dquote || Ascii.eqb d "\"%char then
              match string_body rest' with
              | Some (body, tail) => Some (String d body, tail)
              | None => None
              end
            else None
        | EmptyString => None
        end
      else
        match string_body rest with
        | Some (body, tail) => Some (String c body, tail)
        | None => None
        end
  end.

Definition string_literal (s : string) : option (string * string) :=
  match skip_spaces s with
  | String c rest => if Ascii.eqb c dquote then string_body rest else None
  | EmptyString => None
  end.

Definition expect (c : ascii) (s : string) : option string :=
  match skip_spaces s with
  | String d rest => if Ascii.eqb c d then Some rest else None
  | EmptyString => None
  end.

(** The members of an object after its opening brace. *)
Fixpoint members (fuel : nat) (s : string) (acc : gmap string string)
    : option (gmap string string) :=
  match fuel with
  | O => None
  | S fuel =>
      match string_literal s with
      | Some (k, s1) =>
          match expect ":"%char s1 with
          | Some s2 =>
              match string_literal s2 with
              | Some (v, s3) =>
                  match skip_spaces s3 with
                  | String c s4 =>
                      if Ascii.eqb c ","%char then members fuel s4 (<[k:=v]> acc)
                      else if Ascii.eqb c "}"%char then
                        match skip_spaces s4 with
                        | EmptyString => Some (<[k:=v]> acc)
                        | _ => None
                        end
                      else None
                  | EmptyString => None
                  end
              | None => None
              end
          | None => None
          end
      | None => None
      end
  end.

(** An object of strings. *)
Definition object (text : string) : option (gmap string string) :=
  match expect "{"%char text with
  | Some s1 =>
      match expect "}"%char s1 with
      | Some s2 => match skip_spaces s2 with EmptyString => Some ∅ | _ => None end
      | None => members (String.length text) s1 ∅
      end
  | None => None
  end.

(** The empty list. *)
Definition empty_list (text : string) : bool :=
  match expect "["%char text with
  | Some s1 =>
      match expect "]"%char s1 with
      | Some s2 => match skip_spaces s2 with EmptyString => true | _ => false end
      | None => false
      end
  | None => false
  end.

(** A byte that no UTF-8 text contains. *)
Definition not_utf8 (c : ascii) : bool := Nat.leb 248 (nat_of_ascii c).

Fixpoint undecodable (text : string) : bool :=
  match text with
  | EmptyString => false
  | String c rest => not_utf8 c || undecodable rest
  end.

(** [json.load]: the bytes are decoded, then parsed. *)
Definition loads (text : string) : json + exn :=
  if undecodable text then inr UnicodeDecodeError
  else
    match object text with
    | Some data => inl (path_dict data)
    | None => if empty_list text then inl (JList []) else inr JSONDecodeError
    end.

Definition existing_paths : list string :=
  ["/games"; "/games/hollow-knight"; "/games/unknown-game";
   "/games/hollow-knight/hollow_knight.x86_64"; "/games/hollow-knight/start.sh";
   "/games/hollow-knight/bin/run.sh"; "/roms/g1.iso"].

Definition hollow_knight_installer : Installer :=
  {| installer_script :=
       Some {| script_game := Some {| game_exe := Some "$GAMEDIR/hollow_knight.x86_64";
                                      game_main_file := None |};
               script_exe := None |};
     installer_game_slug := "hollow-knight" |}.

Definition g1 : Game :=
  {| game_id := "g1"; runner_name := "linux"; directory := "/roms"; installed := true;
     config := Some {[ "iso" := CStr "g1.iso" ]} |}.

Definition g2 : Game :=
  {| game_id := "g2"; runner_name := "linux"; directory := "/gone"; installed := true;
     config := Some {[ "exe" := CStr "g2.sh" ]} |}.

Definition make_env (games : list Game) (interpreter : Installer → option exn) : Env :=
  {| path_exists := λ p, bool_decide (p ∈ existing_paths);
     fd_open := λ fd, bool_decide (fd ∈ [0; 1; 2]%Z);
     path_isdir := λ p, bool_decide (p ∈ ["/games"; "/games/hollow-knight"; "/games/unknown-game"]);
     listdir := λ d,
       if String.eqb d "/games" then inl ["hollow-knight"; "unknown-game"]
       else if bool_decide (d ∈ ["/games/hollow-knight"; "/games/unknown-game"]) then inl []
       else if bool_decide (d ∈ existing_paths) then inr ENOTDIR
       else inr ENOENT;
     expanduser := λ p, p;
     slugify := λ s, s;
     json_load := loads;
     json_dump := dumps;
     get_games := games;
     get_api_games := λ slugs,
       if bool_decide ("hollow-knight" ∈ slugs)
       then [{| api_slug := "hollow-knight"; api_name := "Hollow Knight"; api_aliases := [] |}]
       else [];
     get_game_installers := λ slug,
       if String.eqb slug "hollow-knight" then [hollow_knight_installer] else [];
     script_interpreter := interpreter |}.

Definition env : Env := make_env [g1; g2] (λ _, None).

(** A world with no cache file and an idle tracker. *)
Definition fresh : World :=
  {| cache_file := None; path_cache_memo := None; log := []; events := [];
     MISSING_GAMES := MissingGames_init |}.

(** The same world with a cache file holding the bytes [text]. *)
Definition with_file (text : string) : World :=
  {| cache_file := Some text; path_cache_memo := None; log := []; events := [];
     MISSING_GAMES := MissingGames_init |}.

(** The first bytes of a UTF-16 file: they are not UTF-8 text. *)
Definition utf16_bytes : string := String (Ascii.ascii_of_nat 255) (String (Ascii.ascii_of_nat 254) "{}").

(** An installer with an empty game section and a top-level exe. *)
Definition top_level_installer : Installer :=
  {| installer_script :=
       Some {| script_game := Some {| game_exe := None; game_main_file := None |};
               script_exe := Some "start.sh" |};
     installer_game_slug := "hollow-knight" |}.

(** An installer whose exe has the placeholder in the middle. *)
Definition inner_placeholder_installer : Installer :=
  {| installer_script :=
       Some {| script_game := Some {| game_exe := Some "bin/$GAMEDIR/run.sh";
                                      game_main_file := None |};
               script_exe := None |};
     installer_game_slug := "hollow-knight" |}.

(** A MAME game referenced by id, with an empty list of files. *)
Definition pacman : Game :=
  {| game_id := "pacman"; runner_name := "mame"; directory := "/roms"; installed := true;
     config := Some {[ "main_file" := CStr ""; "files" := CList [] ]} |}.

(** A game whose list of files is empty. *)
Definition doom : Game :=
  {| game_id := "doom"; runner_name := "zdoom"; directory := "/games/doom"; installed := true;
     config := Some {[ "files" := CList [] ]} |}.

End Demo.

(** More sample data, for the further properties. *)

Module Sample.

(** The catalog entry of the concrete environment. *)
Definition hollow_knight : ApiGame :=
  {| api_slug := "hollow-knight"; api_name := "Hollow Knight"; api_aliases := [] |}.

(** A library in which the folder of Hollow Knight is already in use. *)
Definition installed_hollow_knight : Game :=
  {| game_id := "hk"; runner_name := "linux"; directory := "/games/hollow-knight";
     installed := true;
     config := Some {[ "exe" := CStr "hollow_knight.x86_64" ]} |}.

Definition env_with_hollow_knight : Env :=
  Demo.make_env [installed_hollow_knight] (λ _, None).

(** A game without any path entry. *)
Definition pathless : Game :=
  {| game_id := "nopath"; runner_name := "linux"; directory := "/games/nopath";
     installed := true; config := Some {[ "args" := CStr "-fullscreen" ]} |}.

(** The cache of the two games of the concrete library. *)
Definition two_games : gmap string string :=
  {[ "g1" := "/roms/g1.iso"; "g2" := "/gone/g2.sh" ]}.

(** A world whose cache file holds [two_games] and whose tracker is in
    the given state. *)
Definition tracking (tracker : MissingGames) : World :=
  {| cache_file := Some (Demo.dumps (path_dict two_games)); path_cache_memo := None; log := [];
     events := []; MISSING_GAMES := tracker |}.

End Sample.

Example demo_dumps_empty : Demo.dumps (JDict ∅) = "{}".
Proof. vm_compute. reflexivity. Qed.

Example demo_loads_garbage : Demo.loads "not json" = inr JSONDecodeError.
Proof. vm_compute. reflexivity. Qed.

Example demo_loads_list : Demo.loads "[]" = inl (JList []).
Proof. vm_compute. reflexivity. Qed.

Example demo_loads_bytes : Demo.loads Demo.utf16_bytes = inr UnicodeDecodeError.
Proof. vm_compute. reflexivity. Qed.

Example demo_loads :
  Demo.loads (Demo.dumps (path_dict {[ "g1" := "/roms/g1.iso"; "g2" := "/gone/g2.sh" ]}))
  = inl (path_dict {[ "g1" := "/roms/g1.iso"; "g2" := "/gone/g2.sh" ]}).
Proof. vm_compute. reflexivity. Qed.


(** ** Path derivation *)

Lemma add_log_nil w : add_log [] w = w.
Proof. destruct w. unfold add_log. simpl. by rewrite app_nil_r. Qed.

Lemma probe_keys_passed_over env game game_config (before keys : list string) w :
  Forall (passed_over game_config) before →
  probe_keys env game game_config (before ++ keys) w
  = probe_keys env game game_config keys w.
Proof.
  induction 1 as [|key before Hkey _ IH]; [done|].
  simpl. destruct Hkey as [[Hne [Hnone | (value & Hsome & Hfalsy)]] | [-> [Hnone | [rest Hsome]]]].
  - by rewrite Hnone.
  - rewrite Hsome. apply String.eqb_neq in Hne. rewrite Hne.
    unfold mbind, M_bind, bind, mret, M_ret, ret. by rewrite Hfalsy.
  - by rewrite Hnone.
  - by rewrite Hsome.
Qed.


Lemma identifier_only_test game game_config :
  identifier_only game game_config ↔
  String.eqb (runner_name game) "mame" &&
    match game_config !! "main_file" with
    | Some main_file => has_no_dot main_file
    | None => false
    end = true.
Proof.
  unfold identifier_only. rewrite andb_true_iff, String.eqb_eq. split.
  - intros [-> (main_file & -> & ->)]. done.
  - intros [-> H]. split; [done|]. destruct (game_config !! "main_file"); [eauto | done].
Qed.



Lemma no_value_passed_over game_config key :
  key ≠ "files" → no_value game_config key → passed_over game_config key.
Proof. intros. left. done. Qed.

(** C10, as the code has it.  When nothing is found under exe, main_file,
    iso, rom and disk-a, there is no path key, files is an empty list, and
    the game is not a MAME game skipped for its extension-less main file,
    the derivation raises IndexError. *)
Theorem get_path_from_config_empty_files env game game_config w :
  config game = Some game_config →
  only_empty_files game_config →
  ¬ identifier_only game game_config →
  get_path_from_config env game w = (Raise IndexError, w).
Proof.
  intros Hconfig (Hfive & Hpath & Hfiles) Hid.
  unfold get_path_from_config. rewrite Hconfig.
  rewrite identifier_only_test in Hid. apply not_true_is_false in Hid. rewrite Hid.
  unfold mbind, M_bind, bind.
  change PATH_KEYS with (["exe"; "main_file"; "iso"; "rom"; "disk-a"; "path"] ++ ["files"]).
  rewrite probe_keys_passed_over.
  - simpl. by rewrite Hfiles.
  - repeat match goal with
           | H : Forall _ (_ :: _) |- _ => apply Forall_cons_1 in H as [? H]
           end.
    repeat (constructor; [apply no_value_passed_over; [discriminate | done] |]).
    constructor; [|constructor]. left. split; [discriminate|]. by left.
Qed.

Lemma get_path_from_config_empty_files_witness :
  get_path_from_config Demo.env Demo.doom Demo.fresh = (Raise IndexError, Demo.fresh).
Proof.
  apply (get_path_from_config_empty_files Demo.env Demo.doom {[ "files" := CList [] ]}).
  - reflexivity.
  - split; [|split; reflexivity].
    repeat (constructor; [left; reflexivity |]). constructor.
  - intros [H _]. discriminate H.
Defined.

(** C10 as stated fails for a MAME game: with an empty main_file the early
    skip returns the empty path before the files list is touched. *)
Lemma get_path_from_config_empty_files_mame :
  only_empty_files {[ "main_file" := CStr ""; "files" := CList [] ]} ∧
  get_path_from_config Demo.env Demo.pacman Demo.fresh = (Ok "", Demo.fresh).
Proof.
  split; [|reflexivity].
  split; [|split; reflexivity].
  constructor; [left; reflexivity |].
  constructor; [right; exists (CStr ""); split; reflexivity |].
  repeat (constructor; [left; reflexivity |]). constructor.
Qed.

(** Up to the warnings it logs, the derivation does not depend on the world. *)
Lemma get_path_from_config_add_log env game :
  ∃ r records, ∀ w, get_path_from_config env game w = (r, add_log records w).
Proof.
  unfold get_path_from_config. destruct (config game) as [game_config|].
  - destruct (_ && _).
    + exists (Ok ""), []. intros w. by rewrite add_log_nil.
    + assert (∀ keys, ∃ r, ∀ w, probe_keys env game game_config keys w = (r, w)) as Hprobe.
      { induction keys as [|key keys [r IH]]; simpl; [by eexists|].
        destruct (game_config !! key) as [value|]; [|by eexists].
        unfold first_item, mbind, M_bind, bind, mret, M_ret, ret, raise.
        repeat (case_match; simpl); simplify_eq; by eexists. }
      destruct (Hprobe PATH_KEYS) as [[[path|]|e|] Hr]; unfold mbind, M_bind, bind.
      * exists (Ok path), []. intros w. by rewrite Hr, add_log_nil.
      * eexists (Ok ""), [_]. intros w. rewrite Hr. reflexivity.
      * exists (Raise e), []. intros w. by rewrite Hr, add_log_nil.
      * exists OutOfFuel, []. intros w. by rewrite Hr, add_log_nil.
  - eexists (Ok ""), [_]. intros w. reflexivity.
Qed.

(** ** The path cache *)

Lemma read_path_cache_present env w text :
  cache_file w = Some text →
  read_path_cache env w
  = (match json_load env text with
     | inl value => Ok value
     | inr e => if is_JSONDecodeError e then Ok (JDict ∅) else Raise e
     end, w).
Proof.
  unfold read_path_cache, open_for_reading, get_world, try_except, load,
    mbind, M_bind, bind, mret, M_ret, ret, raise.
  intros ->. destruct (json_load env text) as [value|e]; [done|].
  by destruct (is_JSONDecodeError e).
Qed.

Lemma read_path_cache_parsed env w text value :
  cache_file w = Some text → parsed env text = Some value →
  read_path_cache env w = (Ok value, w).
Proof.
  intros Hfile. rewrite (read_path_cache_present env w text Hfile). unfold parsed.
  destruct (json_load env text) as [v|e]; [by intros [= ->]|].
  destruct (is_JSONDecodeError e); [by intros [= <-] | done].
Qed.

Lemma read_path_cache_missing env w :
  cache_file w = None → read_path_cache env w = (Raise FileNotFoundError, w).
Proof.
  unfold read_path_cache, open_for_reading, get_world, try_except,
    mbind, M_bind, bind, raise.
  by intros ->.
Qed.

(** C2, as the code has it.  [read_path_cache] returns what [json.load]
    returns for the contents of the cache file, whatever JSON value that
    is, and the empty mapping when [json.load] raises JSONDecodeError.  It
    raises, leaving the world as it was, when the file is absent
    (FileNotFoundError from [open]) and when [json.load] raises any other
    exception, such as UnicodeDecodeError for bytes that are not UTF-8. *)
Theorem read_path_cache_result env w :
  (cache_file w = None → read_path_cache env w = (Raise FileNotFoundError, w)) ∧
  (∀ text, cache_file w = Some text →
     (∀ value, json_load env text = inl value → read_path_cache env w = (Ok value, w)) ∧
     (json_load env text = inr JSONDecodeError → read_path_cache env w = (Ok (JDict ∅), w)) ∧
     (∀ e, json_load env text = inr e → e ≠ JSONDecodeError →
           read_path_cache env w = (Raise e, w))).
Proof.
  split; [apply read_path_cache_missing|].
  intros text Hfile. rewrite (read_path_cache_present env w text Hfile).
  split; [by intros value ->|]. split; [by intros ->|].
  intros e -> Hne. by destruct e.
Qed.

Lemma read_path_cache_result_witness :
  read_path_cache Demo.env (Demo.with_file "not json")
    = (Ok (JDict ∅), Demo.with_file "not json") ∧
  read_path_cache Demo.env (Demo.with_file "[]") = (Ok (JList []), Demo.with_file "[]") ∧
  read_path_cache Demo.env (Demo.with_file Demo.utf16_bytes)
    = (Raise UnicodeDecodeError, Demo.with_file Demo.utf16_bytes).
Proof.
  split; [|split].
  - apply (proj1 (proj2 (proj2 (read_path_cache_result Demo.env (Demo.with_file "not json"))
                           "not json" eq_refl))).
    reflexivity.
  - apply (proj1 (proj2 (read_path_cache_result Demo.env (Demo.with_file "[]")) "[]" eq_refl)
             (JList [])).
    reflexivity.
  - apply (proj2 (proj2 (proj2 (read_path_cache_result Demo.env
                                  (Demo.with_file Demo.utf16_bytes))
                           Demo.utf16_bytes eq_refl))).
    + vm_compute. reflexivity.
    + discriminate.
Defined.

(** C2 as stated fails when the file is absent, and when its bytes cannot
    be decoded. *)
Lemma read_path_cache_absent :
  (cache_file Demo.fresh = None ∧
   read_path_cache Demo.env Demo.fresh = (Raise FileNotFoundError, Demo.fresh)) ∧
  (cache_file (Demo.with_file Demo.utf16_bytes) = Some Demo.utf16_bytes ∧
   read_path_cache Demo.env (Demo.with_file Demo.utf16_bytes)
     = (Raise UnicodeDecodeError, Demo.with_file Demo.utf16_bytes)).
Proof. repeat split; vm_compute; reflexivity. Qed.

Lemma add_log_add_log records1 records2 w :
  add_log records2 (add_log records1 w) = add_log (records1 ++ records2) w.
Proof. unfold add_log. simpl. by rewrite app_assoc. Qed.

(** Collecting the paths of the library only logs. *)
Lemma get_game_paths_from_add_log env all_games :
  ∀ game_paths, ∃ r records,
    ∀ w, get_game_paths_from env all_games game_paths w = (r, add_log records w).
Proof.
  induction all_games as [|game rest IH]; intros game_paths; simpl.
  - exists (Ok game_paths), []. intros w. by rewrite add_log_nil.
  - destruct (_ || _); [apply IH|].
    destruct (get_path_from_config_add_log env game) as (r & records & Hpath).
    unfold mbind, M_bind, bind.
    destruct r as [path| |].
    + destruct (IH game_paths) as (r1 & records1 & H1).
      destruct (IH (<[game_id game := path]> game_paths)) as (r2 & records2 & H2).
      destruct (negb (Py.truthy path)) eqn:Hempty.
      * exists r1, (records ++ records1). intros w.
        by rewrite Hpath, Hempty, H1, add_log_add_log.
      * exists r2, (records ++ records2). intros w.
        by rewrite Hpath, Hempty, H2, add_log_add_log.
    + exists (Raise e), records. intros w. by rewrite Hpath.
    + exists OutOfFuel, records. intros w. by rewrite Hpath.
Qed.

(** C9.  With the cache file in place, [build_path_cache(False)] returns
    without changing the world; and whatever a first call did, a second call
    right after it changes nothing. *)
Theorem build_path_cache_noop env w :
  (cache_file_exists w = true → build_path_cache env false w = (Ok tt, w)) ∧
  (∀ r w1, build_path_cache env false w = (r, w1) →
     build_path_cache env false w1 = (Ok tt, w1)).
Proof.
  assert (∀ w0, cache_file_exists w0 = true → build_path_cache env false w0 = (Ok tt, w0))
    as Hnoop.
  { intros w0 H. unfold build_path_cache, get_world, mbind, M_bind, bind. simpl.
    by rewrite H. }
  split; [apply Hnoop|].
  intros r w1 Hcall. apply Hnoop.
  destruct (cache_file_exists w) eqn:Hexists.
  - rewrite Hnoop in Hcall by done. by simplify_eq.
  - revert Hcall. unfold build_path_cache, get_world, mbind, M_bind, bind.
    rewrite Hexists. simpl. unfold get_game_paths.
    destruct (get_game_paths_from_add_log env
                (filter (λ g, installed g = true) (get_games env)) ∅) as (r' & records & ->).
    destruct r'; intros [= <- <-]; reflexivity.
Qed.

Lemma build_path_cache_noop_witness :
  build_path_cache Demo.env false (Demo.with_file "{}") = (Ok tt, Demo.with_file "{}").
Proof.
  apply (proj1 (build_path_cache_noop Demo.env (Demo.with_file "{}"))). reflexivity.
Defined.

(** C7, as the code has it.  When the cache file exists and holds a JSON
    object, or malformed JSON (which is read as the empty mapping), and
    [json] reads back what it writes: after [add_to_path_cache] of a game
    with a derivable path, [read_path_cache] maps the game's id to that
    path; after [remove_from_path_cache], [read_path_cache] has no entry
    for the id.  When the file is absent, [add_to_path_cache] of a game
    with a derivable path and [remove_from_path_cache] both raise
    FileNotFoundError, and the file is still absent afterwards. *)
Theorem path_cache_round_trip env game w :
  (∀ current path,
     stored env w current →
     (get_path_from_config env game w).1 = Ok path → path ≠ "" →
     round_trips env (JDict (<[game_id game := JStr path]> current)) →
     ∃ w1 w2 data,
       add_to_path_cache env game w = (Ok tt, w1) ∧
       read_path_cache env w1 = (Ok (JDict data), w2) ∧
       data !! game_id game = Some (JStr path)) ∧
  (∀ current,
     stored env w current →
     (game_id game ∈ dom current → round_trips env (JDict (delete (game_id game) current))) →
     ∃ w1 w2 data,
       remove_from_path_cache env game w = (Ok tt, w1) ∧
       read_path_cache env w1 = (Ok (JDict data), w2) ∧
       data !! game_id game = None) ∧
  (cache_file w = None →
     (∀ path,
        (get_path_from_config env game w).1 = Ok path → path ≠ "" →
        ∃ w1, add_to_path_cache env game w = (Raise FileNotFoundError, w1) ∧
              cache_file w1 = None) ∧
     (∃ w1, remove_from_path_cache env game w = (Raise FileNotFoundError, w1) ∧
            cache_file w1 = None)).
Proof.
  split; [|split].
  - intros current path (text & Hfile & Hcurrent) Hpath Hne Hjson.
    destruct (get_path_from_config_add_log env game) as (r & records & Hpure).
    rewrite Hpure in Hpath. simpl in Hpath. subst r.
    unfold add_to_path_cache, logger, mbind, M_bind, bind.
    rewrite Hpure. destruct path as [|c path]; [done|]. simpl.
    rewrite (read_path_cache_parsed env _ text (JDict current)) by done.
    simpl. eexists _, _, _. split; [reflexivity|].
    split.
    + apply (read_path_cache_parsed env _
               (json_dump env (JDict (<[game_id game:=JStr (String c path)]> current))));
        [done|].
      unfold parsed. by rewrite Hjson.
    + apply lookup_insert_eq.
  - intros current (text & Hfile & Hcurrent) Hjson.
    unfold remove_from_path_cache, logger, mbind, M_bind, bind.
    rewrite (read_path_cache_parsed env _ text (JDict current)) by done.
    simpl. case_bool_decide as Hin; simpl.
    + eexists _, _, _. split; [reflexivity|]. split.
      * apply (read_path_cache_parsed env _
                 (json_dump env (JDict (delete (game_id game) current)))); [done|].
        unfold parsed. by rewrite Hjson.
      * apply lookup_delete_eq.
    + eexists _, _, _. split; [reflexivity|]. split.
      * by apply (read_path_cache_parsed env _ text).
      * by apply not_elem_of_dom.
  - intros Hfile. split.
    + intros path Hpath Hne.
      destruct (get_path_from_config_add_log env game) as (r & records & Hpure).
      rewrite Hpure in Hpath. simpl in Hpath. subst r.
      unfold add_to_path_cache, logger, mbind, M_bind, bind.
      rewrite Hpure. destruct path as [|c path]; [done|]. simpl.
      rewrite read_path_cache_missing by done. by eexists.
    + unfold remove_from_path_cache, logger, mbind, M_bind, bind.
      rewrite read_path_cache_missing by done. by eexists.
Qed.

Lemma path_cache_round_trip_witness :
  (∃ w1 w2 data,
     add_to_path_cache Demo.env Demo.g1 (Demo.with_file "{}") = (Ok tt, w1) ∧
     read_path_cache Demo.env w1 = (Ok (JDict data), w2) ∧
     data !! "g1" = Some (JStr "/roms/g1.iso")) ∧
  (∃ w1 w2 data,
     remove_from_path_cache Demo.env Demo.g1 (Sample.tracking MissingGames_init) = (Ok tt, w1) ∧
     read_path_cache Demo.env w1 = (Ok (JDict data), w2) ∧
     data !! "g1" = None) ∧
  (∃ w1, add_to_path_cache Demo.env Demo.g1 Demo.fresh = (Raise FileNotFoundError, w1) ∧
         cache_file w1 = None) ∧
  (∃ w1, remove_from_path_cache Demo.env Demo.g1 Demo.fresh = (Raise FileNotFoundError, w1) ∧
         cache_file w1 = None).
Proof.
  split; [|split; [|split]].
  - apply (proj1 (path_cache_round_trip Demo.env Demo.g1 (Demo.with_file "{}"))
             ∅ "/roms/g1.iso").
    + exists "{}". split; reflexivity.
    + reflexivity.
    + discriminate.
    + vm_compute. reflexivity.
  - apply (proj1 (proj2 (path_cache_round_trip Demo.env Demo.g1
                           (Sample.tracking MissingGames_init)))
             (JStr <$> Sample.two_games)).
    + exists (Demo.dumps (path_dict Sample.two_games)).
      split; [reflexivity | vm_compute; reflexivity].
    + intros _. vm_compute. reflexivity.
  - apply (proj1 (proj2 (proj2 (path_cache_round_trip Demo.env Demo.g1 Demo.fresh)) eq_refl)
             "/roms/g1.iso"); [reflexivity | discriminate].
  - apply (proj2 (proj2 (proj2 (path_cache_round_trip Demo.env Demo.g1 Demo.fresh)) eq_refl)).
Defined.

(** The removal above does delete an entry: g1 is in the file before it,
    and only g2 is after it. *)
Example remove_from_path_cache_two_games :
  let w := Sample.tracking MissingGames_init in
  read_path_cache Demo.env w = (Ok (path_dict Sample.two_games), w) ∧
  (read_path_cache Demo.env (remove_from_path_cache Demo.env Demo.g1 w).2).1
  = Ok (path_dict {[ "g2" := "/gone/g2.sh" ]}).
Proof. split; vm_compute; reflexivity. Qed.

(** C7 as stated fails when the cache file is absent: the game has a
    derivable path, but adding it raises FileNotFoundError, and so does the
    read that follows.  It also fails when the file holds JSON that is not
    an object: on the list [[]] the assignment raises TypeError, and the
    read that follows still gives the list. *)
Lemma add_to_path_cache_absent_file :
  (get_path_from_config Demo.env Demo.g1 Demo.fresh).1 = Ok "/roms/g1.iso" ∧
  ((add_to_path_cache Demo.env Demo.g1 Demo.fresh).1 = Raise FileNotFoundError ∧
   (read_path_cache Demo.env (add_to_path_cache Demo.env Demo.g1 Demo.fresh).2).1
     = Raise FileNotFoundError) ∧
  ((add_to_path_cache Demo.env Demo.g1 (Demo.with_file "[]")).1 = Raise TypeError ∧
   (read_path_cache Demo.env (add_to_path_cache Demo.env Demo.g1 (Demo.with_file "[]")).2).1
     = Ok (JList [])).
Proof. repeat split; vm_compute; reflexivity. Qed.

(** C8 on a failing input.  The library holds a game whose files list is
    empty, so deriving its path raises IndexError; the forced rebuild has
    already truncated the cache file by then, and the mapping that was in
    it is lost. *)
Lemma build_path_cache_truncates_before_failure :
  let env := Demo.make_env [Demo.g1; Demo.doom] (λ _, None) in
  let w := Demo.with_file (Demo.dumps (path_dict {[ "g1" := "/roms/g1.iso" ]})) in
  read_path_cache env w = (Ok (path_dict {[ "g1" := "/roms/g1.iso" ]}), w) ∧
  build_path_cache env true w = (Raise IndexError, Demo.with_file "") ∧
  read_path_cache env (Demo.with_file "") = (Ok (JDict ∅), Demo.with_file "").
Proof. repeat split; vm_compute; reflexivity. Qed.

(** ** The directory scanner *)

Example replace_every_occurrence :
  Py.replace "$GAMEDIR/bin/$GAMEDIR/run.sh" "$GAMEDIR/" "" = "bin/run.sh".
Proof. reflexivity. Qed.

Example join_relative : Py.join "/games/x" "run.sh" = "/games/x/run.sh".
Proof. reflexivity. Qed.

Example join_absolute : Py.join "/games/x" "/opt/run.sh" = "/opt/run.sh".
Proof. reflexivity. Qed.

(** C6, as the code has it.  For an installer with a script, the candidate
    is the game section's exe, else the game section's main_file, and the
    top-level exe only when there is no game section; every occurrence of
    "$GAMEDIR/" is removed from it; the result joined to the folder is
    returned when that path exists, and None otherwise (also when there is
    no candidate). *)
Theorem detect_game_from_installer_result env folder installer script w :
  installer_script installer = Some script →
  detect_game_from_installer env (Some folder) installer w =
  (Ok (match installer_candidate script with
       | Some exe =>
           if Py.truthy exe then
             let full_path := Py.join folder (Py.replace exe "$GAMEDIR/" "") in
             if path_exists env full_path then Some full_path else None
           else None
       | None => None
       end), w).
Proof.
  intros Hscript.
  unfold detect_game_from_installer, installer_candidate, try_except, getitem,
    os_path_join, mbind, M_bind, bind, mret, M_ret, ret, raise.
  rewrite Hscript. simpl.
  destruct (script_game script) as [game|]; simpl.
  - destruct (opt_truthy (game_exe game)) eqn:Hexe; simpl.
    + destruct (game_exe game) as [exe|]; [|done]. simpl in Hexe. rewrite Hexe. simpl.
      by destruct (path_exists env _).
    + destruct (game_main_file game) as [main_file|]; [|done].
      destruct (Py.truthy main_file); simpl; [|done].
      by destruct (path_exists env _).
  - destruct (opt_truthy (script_exe script)) eqn:Hexe; simpl.
    + destruct (script_exe script) as [exe|]; [|done]. simpl in Hexe. rewrite Hexe. simpl.
      by destruct (path_exists env _).
    + destruct (script_exe script) as [exe|]; [|done]. simpl in Hexe. by rewrite Hexe.
Qed.

Lemma detect_game_from_installer_result_witness :
  detect_game_from_installer Demo.env (Some "/games/hollow-knight")
    Demo.hollow_knight_installer Demo.fresh
  = (Ok (Some "/games/hollow-knight/hollow_knight.x86_64"), Demo.fresh).
Proof.
  exact (detect_game_from_installer_result Demo.env "/games/hollow-knight"
           Demo.hollow_knight_installer _ Demo.fresh eq_refl).
Defined.

(** C6 as stated fails twice: a top-level exe is not consulted when the
    script has a game section, and the placeholder is removed wherever it
    occurs, not only as a prefix. *)
Lemma detect_game_from_installer_not_as_specified :
  let folder := "/games/hollow-knight" in
  (deriveExeFromInstaller_as_specified Demo.env folder Demo.top_level_installer
     = Some "/games/hollow-knight/start.sh" ∧
   detect_game_from_installer Demo.env (Some folder) Demo.top_level_installer Demo.fresh
     = (Ok None, Demo.fresh)) ∧
  (deriveExeFromInstaller_as_specified Demo.env folder Demo.inner_placeholder_installer
     = None ∧
   detect_game_from_installer Demo.env (Some folder) Demo.inner_placeholder_installer Demo.fresh
     = (Ok (Some "/games/hollow-knight/bin/run.sh"), Demo.fresh)).
Proof. repeat split; vm_compute; reflexivity. Qed.

(** C1 on a failing input.  The catalog entry "hollow-knight" has an
    installer whose exe exists in the folder, and the installer interpreter
    raises the missing-dependency error.  The scan logs "Skipped", installs
    nothing, goes on, and still downloads the media and reports the slug as
    installed. *)
Lemma scan_directory_reports_skipped_game_installed :
  let env := Demo.make_env [Demo.g1; Demo.g2] (λ _, Some MissingGameDependencyError) in
  scan_directory env "/games" Demo.fresh
  = (Ok ({[ "hollow-knight" := "hollow-knight" ]}, {[ "unknown-game" := "unknown-game" ]}),
     {| cache_file := None; path_cache_memo := None;
        log := [LogRecord INFO "Found %s in %s"
                  [ArgStr "Hollow Knight"; ArgStr "/games/hollow-knight/hollow_knight.x86_64"];
                LogRecord ERROR "Skipped %s: %s"
                  [ArgStr "Hollow Knight"; ArgExn MissingGameDependencyError]];
        events := [EvDownloadMedia "hollow-knight"];
        MISSING_GAMES := MissingGames_init |}).
Proof. vm_compute. reflexivity. Qed.

(** Scenario D of the specification: without the failure, one install. *)
Example scan_directory_scenario_D :
  (scan_directory Demo.env "/games" Demo.fresh).1
  = Ok ({[ "hollow-knight" := "hollow-knight" ]}, {[ "unknown-game" := "unknown-game" ]}) ∧
  events (scan_directory Demo.env "/games" Demo.fresh).2
  = [EvInstall Demo.hollow_knight_installer (Some "/games/hollow-knight");
     EvDownloadMedia "hollow-knight"].
Proof. split; vm_compute; reflexivity. Qed.

(** ** The missing-game tracker *)



Lemma pop_app {A} (l : list A) x : Py.pop (l ++ [x]) = Some (x, l).
Proof. induction l as [|y l IH]; simpl; [done|]. by rewrite IH. Qed.

Lemma pop_nil_iff {A} (l : list A) : Py.pop l = None ↔ l = [].
Proof. destruct l; simpl; [done|]. by destruct (Py.pop l) as [[??]|]. Qed.

Lemma pop_length {A} (l : list A) x q : Py.pop l = Some (x, q) → length l = S (length q).
Proof.
  revert x q. induction l as [|y l IH]; intros x q; simpl; [done|].
  destruct (Py.pop l) as [[z q']|] eqn:Hpop.
  - intros [= <- <-]. simpl. f_equal. by eapply IH.
  - intros [= <- <-]. apply pop_nil_iff in Hpop. by subst.
Qed.

Lemma ids_truthy_empty : ids_truthy (Some ∅) = false.
Proof. unfold ids_truthy. by rewrite bool_decide_eq_true_2. Qed.

Lemma ids_truthy_nonempty (s : gset string) : s ≠ ∅ → ids_truthy (Some s) = true.
Proof. intros. unfold ids_truthy. by rewrite bool_decide_eq_false_2. Qed.

Lemma get_path_cache_sees env w cache :
  sees env w cache →
  ∃ w', get_path_cache env w = (Ok (path_dict cache), w') ∧
        sees env w' cache ∧
        cache_file w' = cache_file w ∧ log w' = log w ∧ events w' = events w ∧
        MISSING_GAMES w' = MISSING_GAMES w.
Proof.
  unfold sees, get_path_cache, get_world, mbind, M_bind, bind.
  destruct (path_cache_memo w) as [cached|] eqn:Hmemo.
  - intros ->. exists w. rewrite Hmemo. done.
  - intros (text & Hfile & Hload).
    rewrite (read_path_cache_parsed env w text _ Hfile Hload). simpl.
    eexists. split; [reflexivity|]. done.
Qed.

(** A path of the mapping, looked up as a value. *)
Lemma path_dict_get (cache : gmap string string) game_id w :
  py_get (path_dict cache) (JStr game_id) w = (Ok (JStr <$> cache !! game_id), w).
Proof. unfold py_get, path_dict, ret. by rewrite lookup_fmap. Qed.

Lemma check_game_id_sees env w cache game_id :
  sees env w cache →
  ∃ w', check_game_id env (JStr game_id) w = (Ok tt, w') ∧
        sees env w' cache ∧ same_files w w' ∧
        MISSING_GAMES w' = tracker_checked env cache game_id (MISSING_GAMES w).
Proof.
  intros Hsees.
  destruct (get_path_cache_sees env w cache Hsees) as (w1 & Hget & Hsees1 & Hfile & Hlog & Hev & Htr).
  unfold check_game_id, mbind, M_bind, bind. rewrite Hget, path_dict_get.
  unfold tracker_checked, checked, same_files.
  rewrite <- Hfile, <- Hlog, <- Hev, <- Htr. clear Hget Hfile Hlog Hev Htr Hsees w.
  destruct w1 as [file memo lg evs [missing ids queue all changed]].
  destruct (cache !! game_id) as [path|]; simpl; [|by eexists].
  destruct (Py.truthy path); simpl; [|by eexists].
  unfold get_tracker, mret, M_ret, ret. simpl.
  destruct (path_exists env path); simpl.
  - case_bool_decide; simpl; by eexists.
  - case_bool_decide; simpl; by eexists.
Qed.


Lemma sees_same env w w' cache :
  path_cache_memo w' = path_cache_memo w → cache_file w' = cache_file w →
  sees env w cache → sees env w' cache.
Proof. unfold sees. by intros -> ->. Qed.

Lemma next_game_id_pop env w (queue : list json) game_id :
  _check_all_games (MISSING_GAMES w) = false →
  _check_game_queue (MISSING_GAMES w) = (queue ++ [game_id]) →
  ∃ w', _next_game_id env w = (Ok (Some game_id), w') ∧
        path_cache_memo w' = path_cache_memo w ∧ same_files w w' ∧
        MISSING_GAMES w' =
          {| missing_game_ids := missing_game_ids (MISSING_GAMES w);
             _check_game_ids := _check_game_ids (MISSING_GAMES w);
             _check_game_queue := queue;
             _check_all_games := false;
             _changed := _changed (MISSING_GAMES w) |}.
Proof.
  destruct w as [file memo lg evs [missing ids q all changed]]. simpl.
  intros -> ->.
  unfold _next_game_id, get_tracker, mbind, M_bind, bind. simpl.
  assert (queue_truthy (queue ++ [game_id]) = true) as -> by by destruct queue.
  simpl. rewrite pop_app. simpl. by eexists.
Qed.

Lemma next_game_id_refill env w (pending : gset string) queue game_id :
  MISSING_GAMES w =
    {| missing_game_ids := missing_game_ids (MISSING_GAMES w);
       _check_game_ids := Some pending; _check_game_queue := [];
       _check_all_games := false; _changed := false |} →
  elements pending = (queue ++ [game_id]) →
  ∃ w', _next_game_id env w = (Ok (Some (JStr game_id)), w') ∧
        path_cache_memo w' = path_cache_memo w ∧
        cache_file w' = cache_file w ∧ log w' = log w ∧
        events w' = (events w ++ [EvSleep CHECK_STALL]) ∧
        MISSING_GAMES w' =
          {| missing_game_ids := missing_game_ids (MISSING_GAMES w);
             _check_game_ids := Some ∅; _check_game_queue := JStr <$> queue;
             _check_all_games := false; _changed := false |}.
Proof.
  destruct w as [file memo lg evs [missing ids q all changed]]. simpl.
  intros [= -> -> -> ->] Helements.
  assert (pending ≠ ∅) as Hne.
  { intros ->. rewrite elements_empty in Helements. by destruct queue. }
  unfold _next_game_id, get_tracker, mbind, M_bind, bind. simpl.
  rewrite ids_truthy_nonempty by done. simpl.
  rewrite Helements, fmap_snoc, pop_app. simpl. by eexists.
Qed.

Lemma next_game_id_done env w :
  _check_all_games (MISSING_GAMES w) = false →
  _check_game_queue (MISSING_GAMES w) = [] →
  ids_truthy (_check_game_ids (MISSING_GAMES w)) = false →
  _next_game_id env w = (Ok None, w).
Proof.
  destruct w as [file memo lg evs [missing ids q all changed]]. simpl.
  intros -> -> Hids.
  unfold _next_game_id, get_tracker, mbind, M_bind, bind. simpl. by rewrite Hids.
Qed.

(** Draining a queue: the ids are checked from the last to the first. *)
Lemma fetch_loop_drain env cache queue :
  ∀ fuel w,
    sees env w cache →
    _check_all_games (MISSING_GAMES w) = false →
    _check_game_ids (MISSING_GAMES w) = Some ∅ →
    _check_game_queue (MISSING_GAMES w) = JStr <$> queue →
    Forall (λ game_id, game_id ≠ "") queue →
    length queue < fuel →
    ∃ w', _fetch_loop env fuel w = (Ok tt, w') ∧ same_files w w' ∧
          MISSING_GAMES w' =
            let state := foldr (checked env cache)
                           (missing_game_ids (MISSING_GAMES w), _changed (MISSING_GAMES w))
                           queue in
            {| missing_game_ids := state.1; _check_game_ids := Some ∅;
               _check_game_queue := []; _check_all_games := false; _changed := state.2 |}.
Proof.
  induction queue as [|game_id queue IH] using rev_ind; intros fuel w Hsees Hall Hids Hqueue Hne Hfuel.
  - destruct fuel as [|fuel]; [simpl in Hfuel; lia|]. simpl.
    unfold mbind, M_bind, bind.
    rewrite next_game_id_done by (rewrite ?Hids; auto using ids_truthy_empty).
    simpl. exists w. split; [done|]. split; [done|].
    destruct w as [file memo lg evs [missing ids q all changed]]. simpl in *. by subst.
  - destruct fuel as [|fuel]; [simpl in Hfuel; lia|].
    rewrite length_app in Hfuel. simpl in Hfuel.
    apply Forall_app in Hne as [Hne Hid]. apply Forall_inv in Hid.
    rewrite fmap_snoc in Hqueue.
    destruct (next_game_id_pop env w (JStr <$> queue) (JStr game_id) Hall Hqueue)
      as (w1 & Hnext & Hmemo1 & (Hfile1 & Hlog1 & Hev1) & Htr1).
    assert (sees env w1 cache) as Hsees1 by by eapply sees_same.
    destruct (check_game_id_sees env w1 cache game_id Hsees1)
      as (w2 & Hcheck & Hsees2 & (Hfile2 & Hlog2 & Hev2) & Htr2).
    destruct (IH fuel w2) as (w3 & Hloop & (Hfile3 & Hlog3 & Hev3) & Htr3).
    + done.
    + by rewrite Htr2, Htr1.
    + by rewrite Htr2, Htr1, Hids.
    + by rewrite Htr2, Htr1.
    + done.
    + lia.
    + exists w3. split.
      * simpl. unfold mbind, M_bind, bind. rewrite Hnext.
        destruct game_id as [|c rest]; [by destruct Hid|]. simpl. rewrite Hcheck. exact Hloop.
      * split; [unfold same_files; by rewrite Hfile3, Hlog3, Hev3, Hfile2, Hlog2, Hev2|].
        rewrite Htr3, Htr2, Htr1. simpl. rewrite foldr_app. simpl.
        by destruct (checked env cache game_id _).
Qed.


Lemma truthy_ne (s : string) : Py.truthy s = true ↔ s ≠ "".
Proof. by destruct s. Qed.

Lemma path_present_gone env cache game_id :
  path_present env cache game_id → path_gone env cache game_id → False.
Proof. intros (p & Hp & _ & He) (p' & Hp' & _ & Hg). congruence. Qed.

(** The three things a check can do to the missing set. *)
Lemma checked_cases env cache game_id state :
  (path_present env cache game_id ∧
   (checked env cache game_id state).1 = state.1 ∖ {[game_id]} ∧
   (checked env cache game_id state).2 = state.2 || bool_decide (game_id ∈ state.1)) ∨
  (path_gone env cache game_id ∧
   (checked env cache game_id state).1 = state.1 ∪ {[game_id]} ∧
   (checked env cache game_id state).2 = state.2 || bool_decide (game_id ∉ state.1)) ∨
  (¬ path_present env cache game_id ∧ ¬ path_gone env cache game_id ∧
   checked env cache game_id state = state).
Proof.
  unfold checked, path_present, path_gone. destruct state as [missing changed]. simpl.
  destruct (cache !! game_id) as [path|] eqn:Hpath; [|right; right; naive_solver].
  destruct (Py.truthy path) eqn:Htruthy.
  - apply truthy_ne in Htruthy.
    destruct (path_exists env path) eqn:Hexists; [left | right; left].
    + split; [eauto|]. case_bool_decide; simpl.
      * by rewrite orb_true_r.
      * rewrite orb_false_r. split; [set_solver | done].
    + split; [eauto|]. case_bool_decide; simpl.
      * by rewrite orb_true_r.
      * rewrite orb_false_r. split; [set_solver | done].
  - right; right.
    split; [|split; [|done]]; intros (p & Hp & Hne & _); injection Hp as <-; by destruct path.
Qed.

Lemma checked_fold_elem env cache (queue : list string) missing changed game_id :
  game_id ∈ (foldr (checked env cache) (missing, changed) queue).1 ↔
  (game_id ∈ queue ∧ path_gone env cache game_id) ∨
  (game_id ∈ missing ∧ ¬ (game_id ∈ queue ∧ path_present env cache game_id)).
Proof.
  induction queue as [|x queue IH]; simpl.
  - set_solver.
  - pose proof (path_present_gone env cache) as Hexcl.
    destruct (checked_cases env cache x (foldr (checked env cache) (missing, changed) queue))
      as [(Hp & -> & _) | [(Hg & -> & _) | (Hp & Hg & ->)]];
      set_unfold; rewrite ?IH; naive_solver.
Qed.

Lemma checked_fold_changed env cache (queue : list string) missing :
  (foldr (checked env cache) (missing, false) queue).2 = true ↔
  (foldr (checked env cache) (missing, false) queue).1 ≠ missing.
Proof.
  induction queue as [|x queue IH]; simpl; [done|].
  pose proof (checked_fold_elem env cache queue missing false x) as Hx.
  pose proof (path_present_gone env cache x) as Hexcl.
  destruct (checked_cases env cache x (foldr (checked env cache) (missing, false) queue))
    as [(Hp & -> & ->) | [(Hg & -> & ->) | (Hp & Hg & ->)]]; [| |done].
  - rewrite orb_true_iff, IH, bool_decide_eq_true.
    destruct (decide (x ∈ (foldr (checked env cache) (missing, false) queue).1)) as [Hin|Hnin].
    + split; [intros _ | by right]. assert (x ∈ missing) by naive_solver. set_solver.
    + replace (_ ∖ {[x]}) with (foldr (checked env cache) (missing, false) queue).1 by set_solver.
      naive_solver.
  - rewrite orb_true_iff, IH, bool_decide_eq_true.
    destruct (decide (x ∈ (foldr (checked env cache) (missing, false) queue).1)) as [Hin|Hnin].
    + replace (_ ∪ {[x]}) with (foldr (checked env cache) (missing, false) queue).1 by set_solver.
      naive_solver.
    + split; [intros _ | by right]. assert (x ∉ missing) by naive_solver. set_solver.
Qed.


Lemma try_except_ok {A} (body : M A) catches handler w a w' :
  body w = (Ok a, w') → try_except body catches handler w = (Ok a, w').
Proof. unfold try_except. by intros ->. Qed.

Lemma try_except_raise {A} (body : M A) catches handler w e w' :
  body w = (Raise e, w') → catches e = true →
  try_except body catches handler w = handler e w'.
Proof. unfold try_except. by intros -> ->. Qed.

Lemma try_finally_ok {A} (body : M A) cleanup w a w1 w2 :
  body w = (Ok a, w1) → cleanup w1 = (Ok tt, w2) →
  try_finally body cleanup w = (Ok a, w2).
Proof. unfold try_finally. by intros -> ->. Qed.

Lemma last_split {A} (l : list A) : l ≠ [] → ∃ front x, l = front ++ [x].
Proof.
  induction l as [|x l _] using rev_ind; [done|]. intros _. by exists l, x.
Qed.

(** A pass that finds ids pending and nothing queued: it stalls, moves the
    pending ids to the queue and checks them all. *)
Lemma fetch_loop_pending env cache (pending : gset string) fuel w :
  sees env w cache →
  MISSING_GAMES w =
    {| missing_game_ids := missing_game_ids (MISSING_GAMES w);
       _check_game_ids := Some pending; _check_game_queue := [];
       _check_all_games := false; _changed := false |} →
  pending ≠ ∅ →
  "" ∉ pending →
  size pending < fuel →
  ∃ w', _fetch_loop env fuel w = (Ok tt, w') ∧
        cache_file w' = cache_file w ∧ log w' = log w ∧
        events w' = (events w ++ [EvSleep CHECK_STALL]) ∧
        MISSING_GAMES w' =
          let state := foldr (checked env cache)
                         (missing_game_ids (MISSING_GAMES w), false) (elements pending) in
          {| missing_game_ids := state.1; _check_game_ids := Some ∅;
             _check_game_queue := []; _check_all_games := false; _changed := state.2 |}.
Proof.
  intros Hsees Htracker Hne Hempty Hfuel.
  destruct (last_split (elements pending)) as (queue & game_id & Helements).
  { intros Hel. apply Hne, leibniz_equiv. by apply elements_empty_inv. }
  assert (Forall (λ g, g ≠ "") (queue ++ [game_id])) as Hids.
  { rewrite <- Helements. apply Forall_forall. intros g Hg ->.
    by apply elem_of_elements in Hg. }
  apply Forall_app in Hids as [Hqueue Hid]. apply Forall_inv in Hid.
  unfold size, set_size in Hfuel. simpl in Hfuel.
  rewrite Helements, length_app in Hfuel. simpl in Hfuel.
  destruct fuel as [|fuel]; [lia|].
  destruct (next_game_id_refill env w pending queue game_id Htracker Helements)
    as (w1 & Hnext & Hmemo1 & Hfile1 & Hlog1 & Hev1 & Htr1).
  assert (sees env w1 cache) as Hsees1 by by eapply sees_same.
  destruct (check_game_id_sees env w1 cache game_id Hsees1)
    as (w2 & Hcheck & Hsees2 & (Hfile2 & Hlog2 & Hev2) & Htr2).
  destruct (fetch_loop_drain env cache queue fuel w2) as (w3 & Hloop & (Hfile3 & Hlog3 & Hev3) & Htr3).
  - done.
  - by rewrite Htr2, Htr1.
  - by rewrite Htr2, Htr1.
  - by rewrite Htr2, Htr1.
  - done.
  - lia.
  - exists w3. split.
    + simpl. unfold mbind, M_bind, bind. rewrite Hnext.
      destruct game_id as [|c rest]; [done|]. simpl. rewrite Hcheck. exact Hloop.
    + rewrite Hfile3, Hlog3, Hev3, Hfile2, Hlog2, Hev2, Hfile1, Hlog1, Hev1.
      do 3 (split; [done|]).
      rewrite Htr3, Htr2, Htr1, Helements. simpl. rewrite foldr_app. simpl.
      by destruct (checked env cache game_id _).
Qed.

Lemma update_missing_idle w missing (game_ids : list string) :
  MISSING_GAMES w = idle missing →
  game_ids ≠ [] →
  ∃ w', update_missing (Some game_ids) w = (Ok tt, w') ∧
        cache_file w' = cache_file w ∧ path_cache_memo w' = path_cache_memo w ∧
        log w' = log w ∧
        events w' = (events w ++ [EvAsyncCall CHECK_STALL]) ∧
        MISSING_GAMES w' =
          {| missing_game_ids := missing; _check_game_ids := Some (∅ ∪ list_to_set game_ids);
             _check_game_queue := []; _check_all_games := false; _changed := false |}.
Proof.
  destruct w as [file memo lg evs tracker]. simpl. intros -> Hne.
  destruct game_ids as [|g game_ids]; [done|].
  unfold update_missing, get_tracker, mbind, M_bind, bind. simpl.
  by eexists.
Qed.

(** The end of [_fetch]: the sentinel is reset and a change is notified. *)
Lemma fetch_cleanup w :
  ∃ w', (set_check_game_ids None;; _notify_changed) w = (Ok tt, w') ∧
        cache_file w' = cache_file w ∧ path_cache_memo w' = path_cache_memo w ∧
        log w' = log w ∧
        events w' = (events w ++ if _changed (MISSING_GAMES w) then [EvFire] else []) ∧
        MISSING_GAMES w' =
          {| missing_game_ids := missing_game_ids (MISSING_GAMES w);
             _check_game_ids := None;
             _check_game_queue := _check_game_queue (MISSING_GAMES w);
             _check_all_games := _check_all_games (MISSING_GAMES w);
             _changed := false |}.
Proof.
  destruct w as [file memo lg evs [missing ids queue all changed]].
  unfold set_check_game_ids, _notify_changed, get_tracker, mbind, M_bind, bind. simpl.
  destruct changed; simpl; eexists; (split; [reflexivity|]); simpl; rewrite ?app_nil_r; done.
Qed.

Lemma worker_pass env w cache missing (game_ids : list string) fuel delay :
  sees env w cache →
  MISSING_GAMES w = idle missing →
  game_ids ≠ [] →
  "" ∉ game_ids →
  length game_ids < fuel →
  ∃ w1 w2 missing',
    update_missing (Some game_ids) w = (Ok tt, w1) ∧
    _fetch env fuel delay w1 = (Ok tt, w2) ∧
    MISSING_GAMES w2 = idle missing' ∧
    (∀ game_id,
       game_id ∈ missing' ↔
       (game_id ∈ game_ids ∧ path_gone env cache game_id) ∨
       (game_id ∈ missing ∧ ¬ (game_id ∈ game_ids ∧ path_present env cache game_id))) ∧
    events w2 = (events w ++ [EvAsyncCall CHECK_STALL; EvSleep delay; EvSleep CHECK_STALL]
                   ++ if bool_decide (missing' = missing) then [] else [EvFire]).
Proof.
  intros Hsees Hidle Hne Hempty Hfuel.
  destruct (update_missing_idle w missing game_ids Hidle Hne)
    as (w1 & Hupdate & Hfile1 & Hmemo1 & Hlog1 & Hev1 & Htr1).
  set (pending := (∅ ∪ list_to_set game_ids : gset string)) in *.
  assert (∀ g, g ∈ elements pending ↔ g ∈ game_ids) as Hpending.
  { intros g. rewrite elem_of_elements. unfold pending. set_solver. }
  pose (w1' := {| cache_file := cache_file w1; path_cache_memo := path_cache_memo w1;
                  log := log w1 ++ [LogRecord DEBUG "Checking for missing games" []];
                  events := events w1 ++ [EvSleep delay];
                  MISSING_GAMES := MISSING_GAMES w1 |}).
  destruct (fetch_loop_pending env cache pending fuel w1')
    as (w2 & Hloop & Hfile2 & Hlog2 & Hev2 & Htr2).
  - eapply sees_same; [| |exact Hsees]; simpl; done.
  - simpl. by rewrite Htr1.
  - destruct game_ids as [|g ?]; [done|]. unfold pending. set_solver.
  - intros Hin. apply Hempty, Hpending. by apply elem_of_elements.
  - eapply Nat.le_lt_trans; [|exact Hfuel].
    apply submseteq_length, NoDup_submseteq; [apply NoDup_elements|].
    intros g. apply Hpending.
  - destruct (fetch_cleanup w2) as (w3 & Hclean & Hfile3 & Hmemo3 & Hlog3 & Hev3 & Htr3).
    set (final := foldr (checked env cache) (missing, false) (elements pending)) in *.
    exists w1, w3, final.1.
    split; [done|]. split.
    { change (_fetch env fuel delay w1) with
        (try_finally
           (try_except (_fetch_loop env fuel) is_Exception
              (λ ex, logger EXCEPTION "Unable to detect missing games: %s" [ArgExn ex]))
           (set_check_game_ids None;; _notify_changed) w1').
      eapply try_finally_ok; [|exact Hclean]. by apply try_except_ok. }
    simpl in Htr2. rewrite Htr1 in Htr2. simpl in Htr2. fold final in Htr2.
    split; [by rewrite Htr3, Htr2|].
    split.
    { intros g. unfold final. rewrite checked_fold_elem. by rewrite !Hpending. }
    rewrite Hev3, Hev2, Htr2. simpl. rewrite Hev1, <- !app_assoc. simpl.
    do 2 f_equal.
    pose proof (checked_fold_changed env cache (elements pending) missing) as Hchanged.
    fold final in Hchanged.
    destruct (final.2); case_bool_decide; naive_solver.
Qed.


Lemma get_path_cache_result env w r w' :
  get_path_cache env w = (r, w') →
  r ≠ OutOfFuel ∧ MISSING_GAMES w' = MISSING_GAMES w ∧
  ∀ cache, r = Ok cache → iterable_length cache = cache_size env w.
Proof.
  unfold get_path_cache, get_world, cache_size, mbind, M_bind, bind.
  destruct (path_cache_memo w) as [cached|] eqn:Hmemo.
  - intros [= <- <-]. split; [done|]. split; [done|]. by intros cache [= <-].
  - destruct (cache_file w) as [text|] eqn:Hfile.
    + rewrite (read_path_cache_present env w text Hfile).
      destruct (json_load env text) as [value|e]; simpl.
      * intros [= <- <-]. split; [done|]. split; [done|]. by intros cache [= <-].
      * destruct (is_JSONDecodeError e); simpl; intros [= <- <-]; [|done].
        split; [done|]. split; [done|]. intros cache [= <-]. apply map_size_empty.
    + rewrite (read_path_cache_missing env w Hfile).
      intros [= <- <-]. done.
Qed.

(** Looking a key up and testing a path change nothing. *)
Lemma py_get_pure container key :
  ∃ r, (∀ w, py_get container key w = (r, w)) ∧ r ≠ OutOfFuel.
Proof. destruct container, key; by eexists. Qed.

Lemma os_path_exists_pure env path :
  ∃ r, (∀ w, os_path_exists env path w = (r, w)) ∧ r ≠ OutOfFuel.
Proof.
  destruct path; simpl; try by eexists.
  destruct (_ && _)%bool; by eexists.
Qed.

Lemma check_game_id_result env game_id w r w' :
  check_game_id env game_id w = (r, w') →
  r ≠ OutOfFuel ∧
  _check_game_ids (MISSING_GAMES w') = _check_game_ids (MISSING_GAMES w) ∧
  _check_game_queue (MISSING_GAMES w') = _check_game_queue (MISSING_GAMES w) ∧
  _check_all_games (MISSING_GAMES w') = _check_all_games (MISSING_GAMES w).
Proof.
  unfold check_game_id, mbind, M_bind, bind.
  destruct (get_path_cache env w) as [r1 w1] eqn:Hget.
  apply get_path_cache_result in Hget as (Hr1 & Htr & _). rewrite <- Htr.
  destruct r1 as [cache| |]; [|by intros [= <- <-]|done].
  destruct (py_get_pure cache game_id) as (r2 & -> & Hr2).
  destruct r2 as [path| |]; [|by intros [= <- <-]|done].
  destruct game_id as [| | | |game_id| |]; try by intros [= <- <-].
  destruct (opt_json_truthy path); [|by intros [= <- <-]].
  destruct (os_path_exists_pure env (default JNull path)) as (r3 & -> & Hr3).
  destruct r3 as [found| |]; [|by intros [= <- <-]|done].
  destruct w1 as [file memo lg evs [missing ids queue all changed]].
  unfold get_tracker, set_missing_game_ids, set_changed, get_tracker, set_tracker,
    mbind, M_bind, bind, mret, M_ret, ret. simpl.
  repeat case_match; intros [= <- <-]; done.
Qed.

Lemma characters_length (s : string) : length (characters s) = String.length s.
Proof. induction s as [|c s IH]; simpl; [done|]. by rewrite IH. Qed.

(** [list(container)] changes nothing, and gives as many items as
    [iterable_length] counts. *)
Lemma py_list_pure container :
  ∃ r, (∀ w, py_list container w = (r, w)) ∧ r ≠ OutOfFuel ∧
       ∀ queue, r = Ok queue → length queue = iterable_length container.
Proof.
  destruct container as [| | | |s|items|members]; simpl;
    (eexists; split; [done|]; split; [done|]); try done; intros queue [= <-].
  - apply characters_length.
  - done.
  - by rewrite length_fmap, <- size_dom.
Qed.

Lemma next_game_id_result env w r w' :
  _next_game_id env w = (r, w') →
  r ≠ OutOfFuel ∧
  ∀ game_id, r = Ok (Some game_id) →
    _check_all_games (MISSING_GAMES w') = false ∧ pass_length env w' < pass_length env w.
Proof.
  destruct w as [file memo lg evs [missing ids queue all changed]].
  unfold _next_game_id, pass_length, get_tracker, set_check_all_games, set_check_game_queue,
    check_game_ids_clear, set_check_game_ids, _notify_changed, set_changed, sleep, emit,
    get_tracker, set_tracker, mbind, M_bind, bind, mret, M_ret, ret, raise.
  simpl. destruct all.
  - match goal with |- context [get_path_cache env ?w0] => set (wa := w0) end.
    destruct (get_path_cache env wa) as [r1 w1] eqn:Hget.
    apply get_path_cache_result in Hget as (Hr1 & Htr1 & Hsize).
    destruct r1 as [cache| |]; [|by intros [= <- <-]|done].
    specialize (Hsize cache eq_refl). change (cache_size env wa) with (cache_size env
      {| cache_file := file; path_cache_memo := memo; log := lg; events := evs;
         MISSING_GAMES := {| missing_game_ids := missing; _check_game_ids := ids;
           _check_game_queue := queue; _check_all_games := true; _changed := changed |} |}) in Hsize.
    rewrite <- Hsize.
    destruct (py_list_pure cache) as (r2 & -> & Hr2 & Hlength).
    destruct r2 as [items| |]; [|by intros [= <- <-]|done].
    rewrite <- (Hlength items eq_refl).
    destruct w1 as [file1 memo1 lg1 evs1 tracker1]. simpl in Htr1. subst tracker1. simpl.
    destruct ids as [pending|]; simpl; [|by intros [= <- <-]].
    rewrite ids_truthy_empty, andb_false_r. simpl.
    destruct (Py.pop items) as [[x rest]|] eqn:Hpop; intros [= <- <-];
      (split; [done|]); [|done].
    intros ? _. simpl. split; [done|]. apply pop_length in Hpop. rewrite size_empty. lia.
  - destruct queue as [|y queue]; simpl.
    + destruct ids as [pending|]; [destruct (decide (pending = ∅)) as [->|Hne]|].
      * rewrite ids_truthy_empty. simpl. by intros [= <- <-].
      * rewrite ids_truthy_nonempty by done.
        destruct changed; simpl;
          (destruct (Py.pop (JStr <$> elements pending)) as [[x rest]|] eqn:Hpop;
           intros [= <- <-]; (split; [done|]); [|done]);
          intros ? _; simpl; (split; [done|]); apply pop_length in Hpop;
          rewrite length_fmap in Hpop;
          rewrite size_empty; unfold size, set_size; simpl; lia.
      * unfold ids_truthy. simpl. by intros [= <- <-].
    + destruct (match Py.pop queue with
                | Some (y0, rest') => Some (y0, y :: rest')
                | None => Some (y, [])
                end) as [[x rest]|] eqn:Hpop; intros [= <- <-]; (split; [done|]); [|done].
      intros ? _. simpl. split; [done|].
      change (Py.pop (y :: queue) = Some (x, rest)) in Hpop.
      apply pop_length in Hpop. simpl in Hpop. lia.
Qed.

Lemma fetch_loop_terminates env :
  ∀ fuel w, pass_length env w < fuel → (_fetch_loop env fuel w).1 ≠ OutOfFuel.
Proof.
  induction fuel as [|fuel IH]; intros w Hfuel; [lia|].
  simpl. unfold mbind, M_bind, bind.
  destruct (_next_game_id env w) as [r1 w1] eqn:Hnext.
  apply next_game_id_result in Hnext as [Hr1 Hnext].
  destruct r1 as [[game_id|]| |]; [|done|done|done].
  destruct (Hnext game_id eq_refl) as [Hall1 Hlt].
  simpl. destruct (json_truthy game_id); simpl; [|done].
  destruct (check_game_id env game_id w1) as [r2 w2] eqn:Hcheck.
  apply check_game_id_result in Hcheck as (Hr2 & Hids & Hqueue & Hall2).
  destruct r2; [|done|done].
  apply IH. unfold pass_length in *. rewrite Hall2, Hids, Hqueue. rewrite Hall1 in *. lia.
Qed.

Lemma fetch_unfold env fuel initial_delay w :
  _fetch env fuel initial_delay w =
  try_finally
    (try_except (_fetch_loop env fuel) is_Exception
       (λ ex, logger EXCEPTION "Unable to detect missing games: %s" [ArgExn ex]))
    (set_check_game_ids None;; _notify_changed)
    (fetch_start initial_delay w).
Proof. reflexivity. Qed.

(** C4.  [update_missing] always leaves the requested ids merged into the
    pending set, and schedules a worker exactly when the pending set was
    None; and a pass of [_fetch], given fuel for the ids it has to pop,
    returns normally with the pending set reset to None, an exception of
    the loop having been caught and logged. *)
Theorem single_flight env :
  (∀ w game_ids, ∃ w1,
     update_missing game_ids w = (Ok tt, w1) ∧
     _check_game_ids (MISSING_GAMES w1)
       = Some (default ∅ (_check_game_ids (MISSING_GAMES w)) ∪ list_to_set (default [] game_ids)) ∧
     (_check_game_ids (MISSING_GAMES w) = None →
      events w1 = events w ++ [EvAsyncCall (if game_ids_truthy game_ids then CHECK_STALL else 0)]) ∧
     (_check_game_ids (MISSING_GAMES w) ≠ None → events w1 = events w)) ∧
  (∀ fuel initial_delay w,
     pass_length env w < fuel →
     ∃ w', _fetch env fuel initial_delay w = (Ok tt, w') ∧
           _check_game_ids (MISSING_GAMES w') = None ∧
           ∀ e w0, _fetch_loop env fuel (fetch_start initial_delay w) = (Raise e, w0) →
                   log w' = log w0 ++ [LogRecord EXCEPTION "Unable to detect missing games: %s"
                                         [ArgExn e]]).
Proof.
  split.
  - intros [file memo lg evs [missing ids queue all changed]] game_ids.
    unfold update_missing, get_tracker, set_check_game_ids, check_game_ids_update,
      AsyncCall_fetch, emit, get_tracker, set_tracker, mbind, M_bind, bind, mret, M_ret, ret.
    simpl.
    assert (ids_truthy ids = false → default ∅ ids = ∅) as Hfalsy.
    { destruct ids as [pending|]; [|done]. unfold ids_truthy.
      rewrite negb_false_iff, bool_decide_eq_true. by intros ->. }
    assert (game_ids_truthy game_ids = false →
            list_to_set (default [] game_ids) = (∅ : gset string)) as Hnone.
    { by destruct game_ids as [[|??]|]. }
    destruct (ids_truthy ids) eqn:Hids, (game_ids_truthy game_ids) eqn:Hgame_ids; simpl;
      destruct ids as [pending|]; try done; simpl in *;
      eexists; (split; [reflexivity|]); simpl;
      rewrite ?Hfalsy, ?Hnone, ?union_empty_r_L by done; repeat split; done.
  - intros fuel initial_delay w Hfuel. rewrite fetch_unfold.
    pose proof (fetch_loop_terminates env fuel (fetch_start initial_delay w) Hfuel) as Hterm.
    destruct (_fetch_loop env fuel (fetch_start initial_delay w)) as [[[]|e|] w0] eqn:Hloop;
      [| |done].
    + destruct (fetch_cleanup w0) as (w' & Hclean & _ & _ & _ & _ & Htr).
      exists w'. split; [|split; [by rewrite Htr | done]].
      eapply try_finally_ok; [|exact Hclean]. by apply try_except_ok.
    + set (w0' := add_log [LogRecord EXCEPTION "Unable to detect missing games: %s" [ArgExn e]] w0).
      destruct (fetch_cleanup w0') as (w' & Hclean & _ & _ & Hlog & _ & Htr).
      exists w'. split; [|split; [by rewrite Htr |]].
      * eapply try_finally_ok; [|exact Hclean].
        by rewrite (try_except_raise _ _ _ _ e w0).
      * intros e' w0'' [= <- <-]. by rewrite Hlog.
Qed.

(** A full check with the cache file absent: reading the cache raises
    FileNotFoundError inside the loop; the pass logs it, returns, and
    leaves the pending set None. *)
Lemma single_flight_witness :
  let w := {| cache_file := None; path_cache_memo := None; log := []; events := [];
              MISSING_GAMES := {| missing_game_ids := ∅; _check_game_ids := Some ∅;
                                  _check_game_queue := []; _check_all_games := true;
                                  _changed := false |} |} in
  ∃ w', _fetch Demo.env 1 0 w = (Ok tt, w') ∧
        _check_game_ids (MISSING_GAMES w') = None ∧
        ∀ e w0, _fetch_loop Demo.env 1 (fetch_start 0 w) = (Raise e, w0) →
                log w' = log w0 ++ [LogRecord EXCEPTION "Unable to detect missing games: %s"
                                      [ArgExn e]].
Proof.
  intros w. apply (proj2 (single_flight Demo.env) 1 0 w). vm_compute. lia.
Defined.

(** C3, as the code has it.  Checking one id against the path cache takes
    it out of the missing set when its cached path exists, puts it in when
    its cached path does not exist, and changes nothing when no path is
    cached for it.  A pass requested for some ids while the tracker is idle
    does this for each of them, and the notification fires once if the set
    changed and not at all otherwise.  In particular, from an empty missing
    set, a pass over g1 (cached path exists) and g2 (cached path does not)
    ends with exactly g2 missing and one notification. *)
Theorem missing_games_pass env cache :
  (∀ w game_id,
     sees env w cache →
     ∃ w', check_game_id env (JStr game_id) w = (Ok tt, w') ∧
           (path_present env cache game_id →
            missing_game_ids (MISSING_GAMES w')
              = missing_game_ids (MISSING_GAMES w) ∖ {[game_id]}) ∧
           (path_gone env cache game_id →
            missing_game_ids (MISSING_GAMES w')
              = missing_game_ids (MISSING_GAMES w) ∪ {[game_id]}) ∧
           (¬ path_present env cache game_id → ¬ path_gone env cache game_id →
            MISSING_GAMES w' = MISSING_GAMES w)) ∧
  (∀ w missing (game_ids : list string) fuel initial_delay,
     sees env w cache →
     MISSING_GAMES w = idle missing →
     game_ids ≠ [] →
     "" ∉ game_ids →
     length game_ids < fuel →
     ∃ w1 w2 missing',
       update_missing (Some game_ids) w = (Ok tt, w1) ∧
       _fetch env fuel initial_delay w1 = (Ok tt, w2) ∧
       MISSING_GAMES w2 = idle missing' ∧
       (∀ game_id,
          game_id ∈ missing' ↔
          (game_id ∈ game_ids ∧ path_gone env cache game_id) ∨
          (game_id ∈ missing ∧ ¬ (game_id ∈ game_ids ∧ path_present env cache game_id))) ∧
       events w2 = events w ++ [EvAsyncCall CHECK_STALL; EvSleep initial_delay; EvSleep CHECK_STALL]
                     ++ (if bool_decide (missing' = missing) then [] else [EvFire]) ∧
       (∀ g1 g2,
          game_ids = [g1; g2] → missing = ∅ →
          path_present env cache g1 → path_gone env cache g2 →
          missing' = {[g2]} ∧
          events w2 = events w ++ [EvAsyncCall CHECK_STALL; EvSleep initial_delay;
                                   EvSleep CHECK_STALL; EvFire])).
Proof.
  split.
  - intros w game_id Hsees.
    destruct (check_game_id_sees env w cache game_id Hsees) as (w' & Hcheck & _ & _ & Htracker).
    exists w'. split; [done|]. rewrite Htracker. unfold tracker_checked. simpl.
    pose proof (path_present_gone env cache game_id) as Hexcl.
    destruct (checked_cases env cache game_id
                (missing_game_ids (MISSING_GAMES w), _changed (MISSING_GAMES w)))
      as [(Hp & Hm & _) | [(Hg & Hm & _) | (Hp & Hg & Hsame)]].
    + split; [done|]. split; [by intros ?; exfalso; eauto | done].
    + split; [by intros ?; exfalso; eauto|]. split; done.
    + split; [done|]. split; [done|]. intros _ _. rewrite Hsame. simpl.
      by destruct (MISSING_GAMES w).
  - intros w missing game_ids fuel initial_delay Hsees Hidle Hne Hempty Hfuel.
    destruct (worker_pass env w cache missing game_ids fuel initial_delay)
      as (w1 & w2 & missing' & Hupdate & Hfetch & Htracker & Hmissing & Hevents); try done.
    exists w1, w2, missing'. do 4 (split; [done|]). split; [done|].
    intros g1 g2 -> -> Hg1 Hg2.
    assert (missing' = {[g2]}) as ->.
    { apply set_eq. intros g. rewrite Hmissing. set_unfold.
      pose proof (path_present_gone env cache g1). naive_solver. }
    split; [done|]. rewrite Hevents.
    rewrite bool_decide_eq_false_2; [done|]. set_solver.
Qed.

(** Scenario B: the cache file maps g1 to a file that exists and g2 to one
    that does not. *)
Lemma missing_games_pass_witness :
  let w := Demo.with_file
             (Demo.dumps (path_dict {[ "g1" := "/roms/g1.iso"; "g2" := "/gone/g2.sh" ]})) in
  ∃ w1 w2,
    update_missing (Some ["g1"; "g2"]) w = (Ok tt, w1) ∧
    _fetch Demo.env 3 CHECK_STALL w1 = (Ok tt, w2) ∧
    MISSING_GAMES w2 = idle {[ "g2" ]} ∧
    events w2 = [EvAsyncCall CHECK_STALL; EvSleep CHECK_STALL; EvSleep CHECK_STALL; EvFire].
Proof.
  intros w.
  destruct (proj2 (missing_games_pass Demo.env {[ "g1" := "/roms/g1.iso"; "g2" := "/gone/g2.sh" ]})
              w ∅ ["g1"; "g2"] 3 CHECK_STALL)
    as (w1 & w2 & missing' & Hupdate & Hfetch & Htracker & _ & _ & Hscenario).
  - exists (Demo.dumps (path_dict {[ "g1" := "/roms/g1.iso"; "g2" := "/gone/g2.sh" ]})).
    split; [reflexivity | vm_compute; reflexivity].
  - reflexivity.
  - discriminate.
  - intros Hin. apply elem_of_cons in Hin as [Hin | Hin]; [discriminate|].
    apply elem_of_cons in Hin as [Hin | Hin]; [discriminate|]. by apply elem_of_nil in Hin.
  - simpl. lia.
  - destruct (Hscenario "g1" "g2" eq_refl eq_refl) as [-> Hevents].
    + exists "/roms/g1.iso". split; [vm_compute; reflexivity|]. split; [discriminate|].
      vm_compute. reflexivity.
    + exists "/gone/g2.sh". split; [vm_compute; reflexivity|]. split; [discriminate|].
      vm_compute. reflexivity.
    + exists w1, w2. by rewrite Hevents.
Defined.

(** C3 as stated fails for an id that has no cached path: the pass leaves
    it out of the missing set. *)
Lemma uncached_id_not_reported_missing :
  let w := Demo.with_file (Demo.dumps (path_dict {[ "g1" := "/roms/g1.iso" ]})) in
  let w1 := (update_missing (Some ["g3"]) w).2 in
  (get_path_cache Demo.env w1).1 = Ok (path_dict {[ "g1" := "/roms/g1.iso" ]}) ∧
  (_fetch Demo.env 2 CHECK_STALL w1).1 = Ok tt ∧
  MISSING_GAMES (_fetch Demo.env 2 CHECK_STALL w1).2 = idle ∅ ∧
  events (_fetch Demo.env 2 CHECK_STALL w1).2
    = [EvAsyncCall CHECK_STALL; EvSleep CHECK_STALL; EvSleep CHECK_STALL].
Proof. repeat split; vm_compute; reflexivity. Qed.

(** * Further properties of the scanner, the path cache and the tracker *)

Lemma collect_game_folders_snoc env dirname (folders : list string) folder :
  collect_game_folders env dirname (folders ++ [folder])
  = let game_folders := collect_game_folders env dirname folders in
    if path_isdir env (Py.join dirname folder)
    then <[slugify env folder := folder]> game_folders else game_folders.
Proof. unfold collect_game_folders. rewrite foldl_snoc. simpl. by destruct (path_isdir env _). Qed.

Lemma collect_game_folders_spec env dirname (folders : list string) :
  (∀ slug folder,
     collect_game_folders env dirname folders !! slug = Some folder →
     folder ∈ folders ∧ is_game_folder env dirname folder ∧ slugify env folder = slug) ∧
  (∀ before folder after,
     folders = before ++ folder :: after →
     is_game_folder env dirname folder →
     (∀ other, other ∈ after → is_game_folder env dirname other →
               slugify env other ≠ slugify env folder) →
     collect_game_folders env dirname folders !! slugify env folder = Some folder).
Proof.
  unfold is_game_folder. split.
  - induction folders as [|x folders IH] using rev_ind; intros slug folder.
    + unfold collect_game_folders. simpl. by rewrite lookup_empty.
    + rewrite collect_game_folders_snoc. simpl.
      destruct (path_isdir env (Py.join dirname x)) eqn:Hdir.
      * rewrite lookup_insert. case_decide as Hslug.
        -- intros [= <-]. rewrite elem_of_app, list_elem_of_singleton. auto.
        -- intros H. apply IH in H as (? & ? & ?). rewrite elem_of_app. auto.
      * intros H. apply IH in H as (? & ? & ?). rewrite elem_of_app. auto.
  - intros before folder after -> Hdir. revert before.
    induction after as [|x after IH] using rev_ind; intros before Hafter.
    + rewrite collect_game_folders_snoc. simpl. rewrite Hdir.
      apply lookup_insert_eq.
    + replace (before ++ folder :: after ++ [x]) with ((before ++ folder :: after) ++ [x])
        by (by rewrite <- app_assoc).
      rewrite collect_game_folders_snoc. simpl.
      assert (collect_game_folders env dirname (before ++ folder :: after)
                !! slugify env folder = Some folder) as Hrec.
      { apply IH. intros other Hin. apply Hafter. rewrite elem_of_app. auto. }
      destruct (path_isdir env (Py.join dirname x)) eqn:Hx; [|done].
      rewrite lookup_insert_ne; [done|].
      apply Hafter; [|done]. rewrite elem_of_app, list_elem_of_singleton. auto.
Qed.

(** Listing the root is all [get_game_slugs_and_folders] can fail on. *)
Lemma get_game_slugs_and_folders_pure env dirname w :
  get_game_slugs_and_folders env dirname w
  = (match listdir env dirname with
     | inl folders => Ok (collect_game_folders env dirname folders)
     | inr errno => Raise (OSError errno)
     end, w).
Proof.
  unfold get_game_slugs_and_folders, os_listdir, mbind, M_bind, bind.
  by destruct (listdir env dirname).
Qed.

Lemma get_game_slugs_and_folders_same env dirname w w' r :
  get_game_slugs_and_folders env dirname w = (r, w) →
  get_game_slugs_and_folders env dirname w' = (r, w').
Proof. rewrite !get_game_slugs_and_folders_pure. by intros [= ->]. Qed.

(** X1.  When the root can be listed, every entry of the slug map is a
    directory listed under the root, stored under its own slug; and a listed
    directory is the entry of its slug unless a later listed directory has
    the same slug (the last one wins).  When the root cannot be listed, the
    error of [os.listdir] is raised. *)
Theorem get_game_slugs_and_folders_spec env dirname w :
  (∀ folders,
     listdir env dirname = inl folders →
     ∃ slugs_map,
       get_game_slugs_and_folders env dirname w = (Ok slugs_map, w) ∧
       (∀ slug folder,
          slugs_map !! slug = Some folder →
          folder ∈ folders ∧ is_game_folder env dirname folder ∧
          slugify env folder = slug) ∧
       (∀ before folder after,
          folders = before ++ folder :: after →
          is_game_folder env dirname folder →
          (∀ other, other ∈ after → is_game_folder env dirname other →
                    slugify env other ≠ slugify env folder) →
          slugs_map !! slugify env folder = Some folder)) ∧
  (∀ errno,
     listdir env dirname = inr errno →
     get_game_slugs_and_folders env dirname w = (Raise (OSError errno), w)).
Proof.
  rewrite get_game_slugs_and_folders_pure. split.
  - intros folders ->. eexists. split; [done|]. apply collect_game_folders_spec.
  - by intros errno ->.
Qed.

Lemma get_used_directories_snoc (games : list Game) game :
  foldl (λ directories game,
           if Py.truthy (directory game) then directories ∪ {[directory game]}
           else directories) (∅ : gset string) (games ++ [game])
  = let directories :=
      foldl (λ directories game,
               if Py.truthy (directory game) then directories ∪ {[directory game]}
               else directories) (∅ : gset string) games in
    if Py.truthy (directory game) then directories ∪ {[directory game]} else directories.
Proof. by rewrite foldl_snoc. Qed.

(** X2.  The used directories are exactly the non-empty directories of the
    games of the library. *)
Theorem get_used_directories_spec env d :
  d ∈ get_used_directories env ↔ d ≠ "" ∧ ∃ game, game ∈ get_games env ∧ directory game = d.
Proof.
  unfold get_used_directories. generalize (get_games env). intros games.
  induction games as [|game games IH] using rev_ind.
  - simpl. split; [set_solver|]. intros (_ & g & Hg & _). by apply elem_of_nil in Hg.
  - rewrite get_used_directories_snoc. simpl.
    destruct (Py.truthy (directory game)) eqn:Htruthy.
    + apply truthy_ne in Htruthy. rewrite elem_of_union, IH, elem_of_singleton.
      split.
      * intros [(? & g & Hg & <-) | ->]; (split; [done|]).
        -- exists g. rewrite elem_of_app. auto.
        -- exists game. rewrite elem_of_app, list_elem_of_singleton. auto.
      * intros (Hne & g & Hg & <-). apply elem_of_app in Hg as [Hg | Hg].
        -- left. eauto.
        -- apply list_elem_of_singleton in Hg as ->. by right.
    + rewrite IH. split.
      * intros (? & g & Hg & <-). split; [done|]. exists g. rewrite elem_of_app. auto.
      * intros (Hne & g & Hg & <-). split; [done|].
        apply elem_of_app in Hg as [Hg | Hg]; [eauto|].
        apply list_elem_of_singleton in Hg as ->. by destruct (directory game).
Qed.

Lemma find_game_folder_candidates env dirname api_game slugs_map :
  find_game_folder env dirname api_game slugs_map
  = find_alias_folder env dirname (api_slug api_game :: api_aliases api_game) slugs_map.
Proof. reflexivity. Qed.

Lemma find_alias_folder_spec env dirname slugs_map (aliases : list string) :
  (∀ game_folder,
     find_alias_folder env dirname aliases slugs_map = Some game_folder →
     ∃ before slug after,
       aliases = before ++ slug :: after ∧
       Forall (candidate_fails env dirname slugs_map) before ∧
       candidate_finds env dirname slugs_map slug game_folder) ∧
  (find_alias_folder env dirname aliases slugs_map = None ↔
   Forall (candidate_fails env dirname slugs_map) aliases).
Proof.
  unfold candidate_fails, candidate_finds.
  induction aliases as [|alias aliases [IHsome IHnone]]; simpl.
  - split; [done|]. split; [constructor | done].
  - destruct (slugs_map !! alias) as [folder|] eqn:Hlookup.
    + destruct (path_exists env (Py.join dirname folder)) eqn:Hexists.
      * split.
        -- intros ? [= <-]. exists [], alias, aliases. split; [done|]. split; [constructor|].
           eauto.
        -- split; [done|]. intros H. apply Forall_cons_1 in H as [H _].
           specialize (H folder Hlookup). congruence.
      * split.
        -- intros game_folder H. apply IHsome in H as (before & slug & after & -> & Hb & Hf).
           exists (alias :: before), slug, after. split; [done|]. split; [|done].
           constructor; [|done]. intros f Hlk. congruence.
        -- rewrite IHnone. split.
           ++ intros H. constructor; [|done]. intros f Hlk. congruence.
           ++ intros H. by apply Forall_cons_1 in H as [_ H].
    + split.
      * intros game_folder H. apply IHsome in H as (before & slug & after & -> & Hb & Hf).
        exists (alias :: before), slug, after. split; [done|]. split; [|done].
        constructor; [|done]. intros f Hlk. congruence.
      * rewrite IHnone. split.
        -- intros H. constructor; [|done]. intros f Hlk. congruence.
        -- intros H. by apply Forall_cons_1 in H as [_ H].
Qed.

(** X3.  The candidates of a catalog entry are its own slug and then its
    aliases, in order: the folder returned is the one of the first
    candidate that names a folder existing on disk, and nothing is returned
    exactly when no candidate does. *)
Theorem find_game_folder_spec env dirname api_game slugs_map :
  let candidates := api_slug api_game :: api_aliases api_game in
  (∀ game_folder,
     find_game_folder env dirname api_game slugs_map = Some game_folder →
     ∃ before slug after,
       candidates = before ++ slug :: after ∧
       Forall (candidate_fails env dirname slugs_map) before ∧
       candidate_finds env dirname slugs_map slug game_folder) ∧
  (find_game_folder env dirname api_game slugs_map = None ↔
   Forall (candidate_fails env dirname slugs_map) candidates).
Proof. rewrite find_game_folder_candidates. apply find_alias_folder_spec. Qed.

Lemma detect_game_from_installer_pure env game_folder installer :
  ∃ r, (∀ w, detect_game_from_installer env game_folder installer w = (r, w)) ∧
       r ≠ OutOfFuel ∧
       (∀ e, r = Raise e → e = KeyError ∨ e = TypeError) ∧
       (∀ full_path, r = Ok (Some full_path) →
          path_exists env full_path = true ∧ ∃ folder, game_folder = Some folder).
Proof.
  unfold detect_game_from_installer, try_except, getitem, os_path_join,
    mbind, M_bind, bind, mret, M_ret, ret, raise.
  destruct (installer_script installer) as [script|]; simpl;
    [|eexists; split; [done|]; split; [done|]; split; [naive_solver | done]].
  destruct (script_game script) as [game|]; simpl.
  - destruct (opt_truthy (game_exe game)) eqn:Hexe; simpl.
    + destruct (game_exe game) as [exe|]; [|done]. simpl in Hexe. rewrite Hexe. simpl.
      destruct game_folder as [folder|]; simpl;
        [|eexists; split; [done|]; split; [done|]; split; [naive_solver | done]].
      destruct (path_exists env _) eqn:Hexists;
        eexists; (split; [done|]); (split; [done|]); (split; [done|]); naive_solver.
    + destruct (game_main_file game) as [main_file|];
        [|eexists; split; [done|]; split; [done|]; split; done].
      destruct (Py.truthy main_file); simpl;
        [|eexists; split; [done|]; split; [done|]; split; done].
      destruct game_folder as [folder|]; simpl;
        [|eexists; split; [done|]; split; [done|]; split; [naive_solver | done]].
      destruct (path_exists env _) eqn:Hexists;
        eexists; (split; [done|]); (split; [done|]); (split; [done|]); naive_solver.
  - destruct (opt_truthy (script_exe script)) eqn:Hexe; simpl.
    + destruct (script_exe script) as [exe|]; [|done]. simpl in Hexe. rewrite Hexe. simpl.
      destruct game_folder as [folder|]; simpl;
        [|eexists; split; [done|]; split; [done|]; split; [naive_solver | done]].
      destruct (path_exists env _) eqn:Hexists;
        eexists; (split; [done|]); (split; [done|]); (split; [done|]); naive_solver.
    + destruct (script_exe script) as [exe|];
        [|eexists; split; [done|]; split; [done|]; split; done].
      simpl in Hexe. rewrite Hexe.
      eexists; split; [done|]; split; [done|]; split; done.
Qed.

(** X4.  An installer without a script makes the detection raise KeyError,
    whatever the folder.  Without a folder (None) the detection never gives
    a path: it returns None when the installer names no executable and
    raises TypeError (from os.path.join) when it names one. *)
Theorem detect_game_from_installer_no_folder env installer w :
  (installer_script installer = None →
   ∀ game_folder,
     detect_game_from_installer env game_folder installer w = (Raise KeyError, w)) ∧
  (∀ script, installer_script installer = Some script →
     detect_game_from_installer env None installer w
     = (if opt_truthy (installer_candidate script) then Raise TypeError else Ok None, w)).
Proof.
  unfold detect_game_from_installer, installer_candidate, try_except, getitem, os_path_join,
    mbind, M_bind, bind, mret, M_ret, ret, raise.
  split.
  - intros -> game_folder. reflexivity.
  - intros script ->. simpl.
    destruct (script_game script) as [game|]; simpl.
    + destruct (opt_truthy (game_exe game)) eqn:Hexe; simpl.
      * destruct (game_exe game) as [exe|]; [|done]. simpl in *. by rewrite Hexe.
      * destruct (game_main_file game) as [main_file|]; [|done]. simpl.
        by destruct (Py.truthy main_file).
    + destruct (opt_truthy (script_exe script)) eqn:Hexe; simpl.
      * destruct (script_exe script) as [exe|]; [|done]. simpl in *. by rewrite Hexe.
      * destruct (script_exe script) as [exe|]; [|done]. simpl in *. by rewrite Hexe.
Qed.

Lemma find_game_in_spec env game_folder (installers : list Installer) :
  ∃ r, (∀ w, find_game_in env game_folder installers w = (r, w)) ∧
    match r with
    | Ok (Some (full_path, installer)) =>
        ∃ before after,
          installers = before ++ installer :: after ∧
          Forall (no_match env game_folder) before ∧
          detects env game_folder installer (Ok (Some full_path)) ∧
          full_path ≠ "" ∧ path_exists env full_path = true ∧
          ∃ folder, game_folder = Some folder
    | Ok None => Forall (no_match env game_folder) installers
    | Raise e =>
        (e = KeyError ∨ e = TypeError) ∧
        ∃ before installer after,
          installers = before ++ installer :: after ∧
          Forall (no_match env game_folder) before ∧
          detects env game_folder installer (Raise e)
    | OutOfFuel => False
    end.
Proof.
  induction installers as [|installer installers (r & Hr & IH)]; simpl.
  - exists (Ok None). split; [done|]. constructor.
  - destruct (detect_game_from_installer_pure env game_folder installer)
      as (r1 & Hdetect & Hfuel & Hexn & Hpath).
    unfold mbind, M_bind, bind.
    destruct r1 as [full_path| e |]; [| |done].
    + destruct (opt_truthy full_path) eqn:Htruthy.
      * destruct full_path as [full_path|]; [|done]. simpl in Htruthy.
        exists (Ok (Some (full_path, installer))). split.
        { intros w. rewrite Hdetect. simpl. by rewrite Htruthy. }
        destruct (Hpath full_path eq_refl) as [Hexists Hfolder].
        exists [], installers. split; [done|]. split; [constructor|]. split; [done|].
        split; [by apply truthy_ne|]. done.
      * exists r. split.
        { intros w. by rewrite Hdetect, Htruthy. }
        assert (no_match env game_folder installer) as Hno by (by exists full_path).
        destruct r as [[[full_path' installer']|]| e |]; [| |  |done].
        -- destruct IH as (before & after & -> & Hbefore & Hrest).
           exists (installer :: before), after. split; [done|]. split; [by constructor | done].
        -- by constructor.
        -- destruct IH as (He & before & installer' & after & -> & Hbefore & Hrest).
           split; [done|]. exists (installer :: before), installer', after.
           split; [done|]. split; [by constructor | done].
    + exists (Raise e). split.
      { intros w. by rewrite Hdetect. }
      split; [by apply Hexn|]. exists [], installer, installers.
      split; [done|]. split; [constructor | done].
Qed.

(** X5.  [find_game] changes nothing and tries the installers in the order
    of the catalog: it returns the first installer that gives a non-empty
    path, which then exists on disk; it returns nothing when no installer
    matches; and it raises (KeyError or TypeError) what the first failing
    installer raises, no earlier installer having matched. *)
Theorem find_game_first_match env game_folder api_game :
  let installers := get_game_installers env (api_slug api_game) in
  ∃ r, (∀ w, find_game env game_folder api_game w = (r, w)) ∧
    match r with
    | Ok (Some (full_path, installer)) =>
        ∃ before after,
          installers = before ++ installer :: after ∧
          Forall (no_match env game_folder) before ∧
          detects env game_folder installer (Ok (Some full_path)) ∧
          full_path ≠ "" ∧ path_exists env full_path = true ∧
          ∃ folder, game_folder = Some folder
    | Ok None => Forall (no_match env game_folder) installers
    | Raise e =>
        (e = KeyError ∨ e = TypeError) ∧
        ∃ before installer after,
          installers = before ++ installer :: after ∧
          Forall (no_match env game_folder) before ∧
          detects env game_folder installer (Raise e)
    | OutOfFuel => False
    end.
Proof. apply find_game_in_spec. Qed.

Lemma scan_api_games_spec env dirname slugs_map directories (api_games : list ApiGame) :
  ∀ slugs_seen slugs_installed w,
  ∃ r w',
    scan_api_games env dirname slugs_map directories api_games slugs_seen slugs_installed w
      = (r, w') ∧
    same_cache_and_tracker w w' ∧
    (∃ new, events w' = events w ++ new ∧ Forall (scan_event env directories) new) ∧
    r ≠ OutOfFuel ∧ r ≠ Raise MissingGameDependencyError ∧
    (∀ result, r = Ok result →
       slugs_installed ⊆ result ∧
       ∀ slug, slug ∈ result →
         slug ∈ slugs_installed ∨ ∃ api_game, api_game ∈ api_games ∧ api_slug api_game = slug).
Proof.
  induction api_games as [|api_game api_games IH]; intros slugs_seen slugs_installed w.
  - simpl. exists (Ok slugs_installed), w. split; [done|]. split; [done|].
    split; [exists []; by rewrite app_nil_r|]. split; [done|]. split; [done|].
    intros ? [= <-]. split; [done|]. auto.
  - simpl. case_bool_decide as Hseen.
    { destruct (IH slugs_seen slugs_installed w) as (r & w' & Hrun & Hframe & Hev & Hf & Hm & Hres).
      exists r, w'. do 5 (split; [done|]). intros result ->.
      destruct (Hres result eq_refl) as [Hsub Hslugs]. split; [done|].
      intros slug Hslug. destruct (Hslugs slug Hslug) as [?|(g & ? & ?)]; [by left|].
      right. exists g. split; [by apply list_elem_of_further | done]. }
    destruct (folder_in (find_game_folder env dirname api_game slugs_map) directories) eqn:Hused.
    { destruct (IH (slugs_seen ∪ {[api_slug api_game]}) (slugs_installed ∪ {[api_slug api_game]}) w)
        as (r & w' & Hrun & Hframe & Hev & Hf & Hm & Hres).
      exists r, w'. do 5 (split; [done|]). intros result ->.
      destruct (Hres result eq_refl) as [Hsub Hslugs]. split; [set_solver|].
      intros slug Hslug. destruct (Hslugs slug Hslug) as [Hin|(g & ? & ?)].
      - apply elem_of_union in Hin as [?|Hin]; [by left|]. right.
        apply elem_of_singleton in Hin as ->. exists api_game. split; [left | done].
      - right. exists g. split; [by apply list_elem_of_further | done]. }
    unfold mbind, M_bind, bind.
    destruct (find_game_in_spec env (find_game_folder env dirname api_game slugs_map)
                (get_game_installers env (api_slug api_game)))
      as (r1 & Hfind & Hr1).
    unfold find_game. rewrite Hfind.
    destruct r1 as [[[full_path installer]|]| e |]; [| | |done].
    + destruct Hr1 as (before & after & _ & _ & Hdetects & _ & Hexists & folder & Hfolder).
      assert (scan_event env directories
                (EvInstall installer (find_game_folder env dirname api_game slugs_map))) as Hinstall.
      { exists folder, full_path. split; [done|]. split; [|done].
        rewrite Hfolder in Hused. simpl in Hused. by apply bool_decide_eq_false in Hused. }
      destruct w as [file memo lg evs tracker].
      unfold logger, try_except, install_game, download_lutris_media, emit, raise. simpl.
      destruct (script_interpreter env installer) as [e|] eqn:Hinterp.
      * destruct (is_MissingGameDependencyError e) eqn:Hcaught; simpl.
        -- match goal with |- context [scan_api_games _ _ _ _ _ ?seen ?inst ?w0] =>
             destruct (IH seen inst w0) as (r & w' & Hrun & Hframe & (new & Hev & Hnew) & Hf & Hm & Hres)
           end.
           exists r, w'. split; [done|]. split; [done|]. split.
           { exists (EvDownloadMedia (installer_game_slug installer) :: new).
             simpl in Hev. rewrite Hev, <- app_assoc. split; [done|]. by constructor. }
           do 2 (split; [done|]). intros result ->.
           destruct (Hres result eq_refl) as [Hsub Hslugs]. split; [set_solver|].
           intros slug Hslug. destruct (Hslugs slug Hslug) as [Hin|(g & ? & ?)].
           ++ apply elem_of_union in Hin as [?|Hin]; [by left|]. right.
              apply elem_of_singleton in Hin as ->. exists api_game. split; [left | done].
           ++ right. exists g. split; [by apply list_elem_of_further | done].
        -- eexists _, _. split; [done|]. split; [done|].
           split; [exists []; simpl; by rewrite app_nil_r|]. split; [done|].
           split; [|done]. intros [= ->]. done.
      * match goal with |- context [scan_api_games _ _ _ _ _ ?seen ?inst ?w0] =>
          destruct (IH seen inst w0) as (r & w' & Hrun & Hframe & (new & Hev & Hnew) & Hf & Hm & Hres)
        end.
        exists r, w'. split; [done|]. split; [done|]. split.
        { eexists (_ :: _ :: new). simpl in Hev. rewrite Hev, <- !app_assoc.
          split; [done|]. constructor; [done|]. by constructor. }
        do 2 (split; [done|]). intros result ->.
        destruct (Hres result eq_refl) as [Hsub Hslugs]. split; [set_solver|].
        intros slug Hslug. destruct (Hslugs slug Hslug) as [Hin|(g & ? & ?)].
        -- apply elem_of_union in Hin as [?|Hin]; [by left|]. right.
           apply elem_of_singleton in Hin as ->. exists api_game. split; [left | done].
        -- right. exists g. split; [by apply list_elem_of_further | done].
    + destruct (IH (slugs_seen ∪ {[api_slug api_game]}) slugs_installed w)
        as (r & w' & Hrun & Hframe & Hev & Hf & Hm & Hres).
      exists r, w'. do 5 (split; [done|]). intros result ->.
      destruct (Hres result eq_refl) as [Hsub Hslugs]. split; [done|].
      intros slug Hslug. destruct (Hslugs slug Hslug) as [?|(g & ? & ?)]; [by left|].
      right. exists g. split; [by apply list_elem_of_further | done].
    + exists (Raise e), w. split; [done|]. split; [done|].
      split; [exists []; by rewrite app_nil_r|]. split; [done|]. split; [|done].
      destruct Hr1 as [[-> | ->] _]; done.
Qed.

(** X6.  The two maps a scan returns split the slug map of the root: their
    union is the whole map, they share no slug, and every installed slug is
    the slug of a catalog entry the scan worked on. *)
Theorem scan_directory_partition env dirname w installed_map missing_map w' :
  scan_directory env dirname w = (Ok (installed_map, missing_map), w') →
  ∃ slugs_map,
    get_game_slugs_and_folders env dirname w = (Ok slugs_map, w) ∧
    installed_map ∪ missing_map = slugs_map ∧
    installed_map ##ₘ missing_map ∧
    ∀ slug, slug ∈ dom installed_map →
      ∃ api_game, api_game ∈ scanned_api_games env slugs_map ∧ api_slug api_game = slug.
Proof.
  unfold scan_directory, scanned_api_games, mbind, M_bind, bind.
  rewrite get_game_slugs_and_folders_pure.
  destruct (listdir env dirname) as [folders|errno]; [|done].
  set (slugs_map := collect_game_folders env dirname folders).
  destruct (scan_api_games_spec env dirname slugs_map (get_used_directories env)
              (get_api_games env (elements (dom slugs_map))) ∅ ∅ w)
    as (r & w1 & -> & _ & _ & _ & _ & Hres).
  destruct r as [slugs_installed| |]; [|done|done].
  intros [= <- <- <-]. destruct (Hres slugs_installed eq_refl) as [_ Hslugs].
  exists slugs_map. split; [done|].
  split; [apply map_filter_union_complement|].
  split; [apply map_disjoint_filter_complement|].
  intros slug Hslug. apply elem_of_dom in Hslug as [folder Hslug].
  apply map_lookup_filter_Some in Hslug as [_ Hin]. simpl in Hin.
  destruct (Hslugs slug Hin) as [Hempty | ?]; [set_solver | done].
Qed.

(** X7.  A scan leaves the cache file, the snapshot and the tracker alone
    and only emits media downloads and installations; every installation
    is for a folder that no installed game uses, with an installer whose
    executable was found on disk. *)
Theorem scan_directory_effects env dirname w :
  ∃ r w' new,
    scan_directory env dirname w = (r, w') ∧
    r ≠ OutOfFuel ∧
    same_cache_and_tracker w w' ∧
    events w' = events w ++ new ∧
    Forall (scan_event env (get_used_directories env)) new.
Proof.
  unfold scan_directory, mbind, M_bind, bind.
  rewrite get_game_slugs_and_folders_pure.
  destruct (listdir env dirname) as [folders|errno].
  - set (slugs_map := collect_game_folders env dirname folders).
    destruct (scan_api_games_spec env dirname slugs_map (get_used_directories env)
                (get_api_games env (elements (dom slugs_map))) ∅ ∅ w)
      as (r & w1 & -> & Hframe & (new & Hev & Hnew) & Hfuel & _ & _).
    destruct r as [slugs_installed| e |]; [| |done]; eexists _, w1, new; (split; [done|]); done.
  - eexists _, w, []. split; [done|]. split; [done|]. split; [done|].
    split; [by rewrite app_nil_r | constructor].
Qed.

(** X8.  Whatever the installer interpreter raises, a scan never ends in
    the missing-dependency error. *)
Theorem scan_directory_survives_missing_dependency env dirname w :
  ∃ r w', scan_directory env dirname w = (r, w') ∧ r ≠ Raise MissingGameDependencyError.
Proof.
  unfold scan_directory, mbind, M_bind, bind.
  rewrite get_game_slugs_and_folders_pure.
  destruct (listdir env dirname) as [folders|errno].
  - set (slugs_map := collect_game_folders env dirname folders).
    destruct (scan_api_games_spec env dirname slugs_map (get_used_directories env)
                (get_api_games env (elements (dom slugs_map))) ∅ ∅ w)
      as (r & w1 & -> & _ & _ & _ & Hm & _).
    destruct r as [slugs_installed| e |]; eexists _, _; (split; [reflexivity|]); [done| |done].
    intros [= ->]. done.
  - eexists _, _. split; [reflexivity|]. by destruct errno.
Qed.

Lemma scan_api_games_all_used env dirname slugs_map directories (api_games : list ApiGame) :
  Forall (λ api_game,
            folder_in (find_game_folder env dirname api_game slugs_map) directories = true)
         api_games →
  ∀ slugs_seen slugs_installed w,
    scan_api_games env dirname slugs_map directories api_games slugs_seen slugs_installed w
    = (Ok (slugs_installed ∪ (list_to_set (api_slug <$> api_games) ∖ slugs_seen)), w).
Proof.
  induction api_games as [|api_game api_games IH]; intros Hall slugs_seen slugs_installed w;
    simpl; [|apply Forall_cons_1 in Hall as [Hused Hall]; specialize (IH Hall)].
  - unfold mret, M_ret, ret. do 2 f_equal. set_solver.
  - case_bool_decide as Hseen.
    + rewrite IH. do 2 f_equal. set_solver.
    + rewrite Hused, IH. do 2 f_equal.
      apply set_eq. intros slug. set_unfold.
      destruct (decide (slug = api_slug api_game)); naive_solver.
Qed.

(** X9.  When the root can be listed, [slugs_map] being its slug map, and
    the folder of every catalog entry is already used by an installed game,
    a scan has no effect at all: it reports those entries as installed and
    leaves the world as it was (no install, no download, no log). *)
Theorem scan_directory_all_used env dirname w slugs_map :
  get_game_slugs_and_folders env dirname w = (Ok slugs_map, w) →
  Forall (λ api_game,
            folder_in (find_game_folder env dirname api_game slugs_map)
                      (get_used_directories env) = true)
         (scanned_api_games env slugs_map) →
  let catalog : gset string := list_to_set (api_slug <$> scanned_api_games env slugs_map) in
  scan_directory env dirname w
  = (Ok (filter (λ kv, kv.1 ∈ catalog) slugs_map,
         filter (λ kv, kv.1 ∉ catalog) slugs_map), w).
Proof.
  intros Hlisted Hused catalog. unfold scan_directory, mbind, M_bind, bind.
  rewrite Hlisted, scan_api_games_all_used by done.
  fold (scanned_api_games env slugs_map).
  replace (∅ ∪ list_to_set (api_slug <$> scanned_api_games env slugs_map) ∖ ∅) with catalog
    by (unfold catalog; set_solver).
  reflexivity.
Qed.

(** X24.  A scan of a root that cannot be listed raises the error of
    [os.listdir] and does nothing else. *)
Theorem scan_directory_unlistable env dirname w errno :
  listdir env dirname = inr errno →
  scan_directory env dirname w = (Raise (OSError errno), w).
Proof.
  intros Hlist. unfold scan_directory, mbind, M_bind, bind.
  by rewrite get_game_slugs_and_folders_pure, Hlist.
Qed.

Lemma get_path_from_config_derives env game w path :
  (get_path_from_config env game w).1 = Ok path → derives env game path.
Proof.
  destruct (get_path_from_config_add_log env game) as (r & records & Hpure).
  rewrite Hpure. simpl. intros -> w'. by rewrite Hpure.
Qed.

Lemma get_game_paths_from_spec env (all_games : list Game) :
  ∀ game_paths w result w',
    get_game_paths_from env all_games game_paths w = (Ok result, w') →
    (∀ id path, result !! id = Some path →
       game_paths !! id = Some path ∨
       ∃ game, game ∈ all_games ∧ game_id game = id ∧
               runner_name game ≠ "steam" ∧ runner_name game ≠ "web" ∧
               derives env game path ∧ path ≠ "") ∧
    dom game_paths ⊆ dom result ∧
    (∀ game path, game ∈ all_games →
       runner_name game ≠ "steam" → runner_name game ≠ "web" →
       derives env game path → path ≠ "" → game_id game ∈ dom result).
Proof.
  induction all_games as [|game rest IH]; intros game_paths w result w'; simpl.
  - intros [= <- <-]. split; [auto|]. split; [done|]. intros ?? Hin. by apply elem_of_nil in Hin.
  - destruct (String.eqb (runner_name game) "steam") eqn:Hsteam; simpl.
    { intros Hrun. destruct (IH _ _ _ _ Hrun) as (Hval & Hdom & Hkeys).
      apply String.eqb_eq in Hsteam.
      split; [|split; [done|]].
      - intros id path Hlookup. destruct (Hval id path Hlookup) as [?|(g & ? & ?)]; [by left|].
        right. exists g. split; [by right | done].
      - intros g path Hin. apply elem_of_cons in Hin as [-> | Hin]; [done|]. by apply Hkeys. }
    destruct (String.eqb (runner_name game) "web") eqn:Hweb; simpl.
    { intros Hrun. destruct (IH _ _ _ _ Hrun) as (Hval & Hdom & Hkeys).
      apply String.eqb_eq in Hweb.
      split; [|split; [done|]].
      - intros id path Hlookup. destruct (Hval id path Hlookup) as [?|(g & ? & ?)]; [by left|].
        right. exists g. split; [by right | done].
      - intros g path Hin. apply elem_of_cons in Hin as [-> | Hin]; [done|]. by apply Hkeys. }
    apply String.eqb_neq in Hsteam, Hweb.
    unfold mbind, M_bind, bind.
    destruct (get_path_from_config env game w) as [[path0| |] w0] eqn:Hpath; [|done|done].
    assert (derives env game path0) as Hderives.
    { eapply get_path_from_config_derives. by rewrite Hpath. }
    destruct (Py.truthy path0) eqn:Htruthy; simpl.
    + apply truthy_ne in Htruthy.
      intros Hrun. destruct (IH _ _ _ _ Hrun) as (Hval & Hdom & Hkeys).
      split; [|split].
      * intros id path Hlookup. destruct (Hval id path Hlookup) as [Hin|(g & ? & ?)].
        -- apply lookup_insert_Some in Hin as [[<- <-] | [_ ?]]; [|by left].
           right. exists game. split; [left | done].
        -- right. exists g. split; [by right | done].
      * etrans; [|exact Hdom]. rewrite dom_insert. set_solver.
      * intros g path Hin. apply elem_of_cons in Hin as [-> | Hin]; [|by apply Hkeys].
        intros _ _ _ _. apply Hdom. rewrite dom_insert. set_solver.
    + intros Hrun. destruct (IH _ _ _ _ Hrun) as (Hval & Hdom & Hkeys).
      split; [|split; [done|]].
      * intros id path Hlookup. destruct (Hval id path Hlookup) as [?|(g & ? & ?)]; [by left|].
        right. exists g. split; [by right | done].
      * intros g path Hin. apply elem_of_cons in Hin as [-> | Hin]; [|by apply Hkeys].
        intros _ _ Hd Hne. specialize (Hd w). rewrite Hpath in Hd. simpl in Hd.
        injection Hd as <-. by destruct path0.
Qed.

(** X10.  The mapping [get_game_paths] builds holds, under each id, the
    path derived for an installed game with that id that is not run by
    steam or web; and every such game with a non-empty derived path has its
    id in the mapping. *)
Theorem get_game_paths_spec env w game_paths w' :
  get_game_paths env w = (Ok game_paths, w') →
  (∀ id path, game_paths !! id = Some path →
     ∃ game, game ∈ get_games env ∧ game_id game = id ∧ cacheable env game path) ∧
  (∀ game path, game ∈ get_games env → cacheable env game path →
     game_id game ∈ dom game_paths).
Proof.
  unfold get_game_paths, cacheable. intros Hrun.
  destruct (get_game_paths_from_spec env _ _ _ _ _ Hrun) as (Hval & _ & Hkeys). split.
  - intros id path Hlookup. destruct (Hval id path Hlookup) as [Hin|(g & Hg & ?)].
    + by rewrite lookup_empty in Hin.
    + apply list_elem_of_filter in Hg as [Hinst Hg]. exists g. naive_solver.
  - intros game path Hg (Hinst & ? & ? & ? & ?). eapply Hkeys; try done.
    by apply list_elem_of_filter.
Qed.

Lemma get_game_paths_add_log env :
  ∃ r records, ∀ w, get_game_paths env w = (r, add_log records w).
Proof. apply get_game_paths_from_add_log. Qed.

Lemma get_path_cache_fresh env w data :
  path_cache_memo w = None → cache_file w = Some (json_dump env data) → round_trips env data →
  ∃ w', get_path_cache env w = (Ok data, w').
Proof.
  intros Hmemo Hfile Hjson.
  unfold get_path_cache, get_world, mbind, M_bind, bind. rewrite Hmemo.
  rewrite (read_path_cache_parsed env w _ data Hfile).
  - simpl. by eexists.
  - unfold parsed. by rewrite Hjson.
Qed.

(** X11.  When the file is absent or the rebuild is forced, and paths can
    be derived for the library, [build_path_cache] writes the mapping of
    [get_game_paths] to the file and clears the snapshot, so that
    [get_path_cache] then returns this mapping; tracker and events are
    untouched. *)
Theorem build_path_cache_rebuilds env recreate w game_paths :
  cache_file_exists w && negb recreate = false →
  (get_game_paths env w).1 = Ok game_paths →
  ∃ w1, build_path_cache env recreate w = (Ok tt, w1) ∧
        cache_file w1 = Some (json_dump env (path_dict game_paths)) ∧
        path_cache_memo w1 = None ∧
        MISSING_GAMES w1 = MISSING_GAMES w ∧ events w1 = events w ∧
        (round_trips env (path_dict game_paths) →
         ∃ w2, get_path_cache env w1 = (Ok (path_dict game_paths), w2)).
Proof.
  intros Hrebuild Hpaths.
  destruct (get_game_paths_add_log env) as (r & records & Hpure).
  rewrite Hpure in Hpaths. simpl in Hpaths. subst r.
  unfold build_path_cache, get_world, mbind, M_bind, bind. simpl. rewrite Hrebuild.
  unfold open_for_writing, set_cache_file. rewrite Hpure. simpl.
  eexists. split; [reflexivity|]. simpl. do 4 (split; [done|]).
  intros Hjson. by apply get_path_cache_fresh.
Qed.

(** X12.  With the cache file holding the mapping [current], adding a game
    with a derivable path makes [get_path_cache] return [current] with the
    game's id set to that path and every other entry as before, whatever
    snapshot was memoized. *)
Theorem add_to_path_cache_updates env game w current path :
  stored env w current →
  derives env game path → path ≠ "" →
  round_trips env (JDict (<[game_id game := JStr path]> current)) →
  ∃ w1 w2,
    add_to_path_cache env game w = (Ok tt, w1) ∧
    get_path_cache env w1 = (Ok (JDict (<[game_id game := JStr path]> current)), w2) ∧
    MISSING_GAMES w1 = MISSING_GAMES w ∧ events w1 = events w.
Proof.
  intros (text & Hfile & Hcurrent) Hpath Hne Hjson.
  destruct (get_path_from_config_add_log env game) as (r & records & Hpure).
  specialize (Hpath w). rewrite Hpure in Hpath. simpl in Hpath. subst r.
  unfold add_to_path_cache, logger, mbind, M_bind, bind.
  rewrite Hpure. destruct path as [|c path]; [done|]. simpl.
  rewrite (read_path_cache_parsed env _ text (JDict current)) by done. simpl.
  unfold cache_clear, set_path_cache_memo.
  match goal with |- context [(Ok tt, ?w0)] =>
    destruct (get_path_cache_fresh env w0 (JDict (<[game_id game:=JStr (String c path)]> current)))
      as (w2 & Hget); [done..|]
  end.
  eexists _, w2. split; [reflexivity|]. done.
Qed.

(** X13.  With the cache file holding the mapping [current], removing a
    game whose id is in it makes [get_path_cache] return [current] without
    that id and every other entry as before. *)
Theorem remove_from_path_cache_deletes env game w current :
  stored env w current →
  game_id game ∈ dom current →
  round_trips env (JDict (delete (game_id game) current)) →
  ∃ w1 w2,
    remove_from_path_cache env game w = (Ok tt, w1) ∧
    get_path_cache env w1 = (Ok (JDict (delete (game_id game) current)), w2) ∧
    MISSING_GAMES w1 = MISSING_GAMES w ∧ events w1 = events w.
Proof.
  intros (text & Hfile & Hcurrent) Hin Hjson.
  unfold remove_from_path_cache, logger, mbind, M_bind, bind.
  rewrite (read_path_cache_parsed env _ text (JDict current)) by done. simpl.
  rewrite !bool_decide_eq_true_2 by done. simpl.
  unfold cache_clear, set_path_cache_memo.
  match goal with |- context [(Ok tt, ?w0)] =>
    destruct (get_path_cache_fresh env w0 (JDict (delete (game_id game) current)))
      as (w2 & Hget); [done..|]
  end.
  eexists _, w2. split; [reflexivity|]. done.
Qed.

(** X14.  Adding a game for which no path can be derived only logs: the
    cache file is neither read nor written (so this succeeds even when the
    file is absent) and the snapshot is kept. *)
Theorem add_to_path_cache_without_path env game w :
  derives env game "" →
  ∃ records, add_to_path_cache env game w = (Ok tt, add_log records w).
Proof.
  intros Hpath.
  destruct (get_path_from_config_add_log env game) as (r & records & Hpure).
  specialize (Hpath w). rewrite Hpure in Hpath. simpl in Hpath. subst r.
  unfold add_to_path_cache, logger, mbind, M_bind, bind.
  rewrite Hpure. simpl. eexists (_ :: records ++ [_]).
  unfold add_log. simpl. by rewrite <- !app_assoc.
Qed.

(** X15.  Removing a game whose id is not in the cache only logs: the file
    is not rewritten and the snapshot is kept. *)
Theorem remove_from_path_cache_unknown env game w current :
  stored env w current →
  game_id game ∉ dom current →
  ∃ records, remove_from_path_cache env game w = (Ok tt, add_log records w).
Proof.
  intros (text & Hfile & Hcurrent) Hin.
  unfold remove_from_path_cache, logger, mbind, M_bind, bind.
  rewrite (read_path_cache_parsed env _ text (JDict current)) by done. simpl.
  rewrite bool_decide_eq_false_2 by done. simpl. eexists [_; _].
  unfold add_log. simpl. by rewrite <- !app_assoc.
Qed.

(** X16.  When none of the seven keys gives a value (and the MAME skip does
    not apply), the derivation logs "No path found" and returns the empty
    path. *)
Theorem get_path_from_config_no_path env game game_config w :
  config game = Some game_config →
  ¬ identifier_only game game_config →
  Forall (passed_over game_config) PATH_KEYS →
  get_path_from_config env game w
  = (Ok "", add_log [LogRecord WARNING "No path found in %s" [ArgConfig (game_id game)]] w).
Proof.
  intros Hconfig Hid Hkeys. unfold get_path_from_config. rewrite Hconfig.
  rewrite identifier_only_test in Hid. apply not_true_is_false in Hid. rewrite Hid.
  unfold mbind, M_bind, bind.
  rewrite <- (app_nil_r PATH_KEYS), probe_keys_passed_over by done. reflexivity.
Qed.

Lemma startswith_slash_app (a b : string) :
  Py.startswith a "/" = true → Py.startswith (a +:+ b) "/" = true.
Proof.
  destruct a as [|c a]; [done|]. unfold Py.startswith.
  cbn [String.prefix String.append]. destruct (ascii_dec _ c); [|done].
  subst c. intros _. simpl. by destruct (a +:+ b).
Qed.

Lemma join_absolute_directory (directory path : string) :
  Py.startswith directory "/" = true → Py.startswith (Py.join directory path) "/" = true.
Proof.
  intros Hdir. unfold Py.join.
  destruct (Py.startswith path "/") eqn:Hpath; [done|].
  destruct (_ || _); by apply startswith_slash_app.
Qed.

Lemma probe_keys_absolute env game game_config (keys : list string) w path w' :
  Py.startswith (directory game) "/" = true →
  probe_keys env game game_config keys w = (Ok (Some path), w') →
  Py.startswith path "/" = true.
Proof.
  intros Hdir. induction keys as [|key keys IH]; simpl; [done|].
  destruct (game_config !! key) as [value|]; [|done].
  unfold first_item, mbind, M_bind, bind, mret, M_ret, ret, raise.
  repeat (case_match; simpl in *; simplify_eq); try done;
    intros; simplify_eq; try done; try (by apply join_absolute_directory);
    try (by apply negb_false_iff).
Qed.

(** X17.  For a game whose directory is absolute, a derived path is
    absolute too. *)
Theorem get_path_from_config_absolute env game w path w' :
  Py.startswith (directory game) "/" = true →
  get_path_from_config env game w = (Ok path, w') →
  path ≠ "" →
  Py.startswith path "/" = true.
Proof.
  intros Hdir. unfold get_path_from_config.
  destruct (config game) as [game_config|]; [|by intros [= <- <-]].
  destruct (_ && _); [by intros [= <- <-]|].
  unfold mbind, M_bind, bind.
  destruct (probe_keys env game game_config PATH_KEYS w) as [[[found|]| |] w0] eqn:Hprobe;
    [| by intros [= <- <-] | done | done].
  intros [= <- <-] _. by eapply probe_keys_absolute.
Qed.

Lemma pop_fmap {A B} (f : A → B) (l : list A) :
  Py.pop (f <$> l)
  = match Py.pop l with
    | Some (x, queue) => Some (f x, f <$> queue)
    | None => None
    end.
Proof.
  induction l as [|x l IH]; [done|].
  rewrite fmap_cons. cbn [Py.pop]. rewrite IH. by destruct (Py.pop l) as [[y rest]|].
Qed.

Lemma pop_snoc {A} (l : list A) x queue : Py.pop l = Some (x, queue) → l = queue ++ [x].
Proof.
  revert x queue. induction l as [|y l IH]; intros x queue; simpl; [done|].
  destruct (Py.pop l) as [[z rest]|] eqn:Hl.
  - intros [= <- <-]. simpl. f_equal. by apply IH.
  - intros [= <- <-]. apply pop_nil_iff in Hl. by subst.
Qed.

(** The keys of the mapping, listed as values. *)
Lemma path_dict_list (cache : gmap string string) w :
  py_list (path_dict cache) w = (Ok (JStr <$> elements (dom cache)), w).
Proof. unfold py_list, path_dict, ret. by rewrite dom_fmap_L. Qed.

(** The first [_next_game_id] of a full check: the queue becomes the keys
    of the cache and the pending ids are dropped. *)
Lemma next_game_id_all env w cache (pending : gset string) :
  sees env w cache →
  _check_all_games (MISSING_GAMES w) = true →
  _check_game_ids (MISSING_GAMES w) = Some pending →
  ∃ w', _next_game_id env w
          = (match Py.pop (elements (dom cache)) with
             | Some (game_id, _) => Ok (Some (JStr game_id))
             | None => Ok None
             end, w') ∧
        sees env w' cache ∧ same_files w w' ∧
        MISSING_GAMES w' =
          {| missing_game_ids := missing_game_ids (MISSING_GAMES w);
             _check_game_ids := Some ∅;
             _check_game_queue := match Py.pop (elements (dom cache)) with
                                  | Some (_, queue) => JStr <$> queue
                                  | None => []
                                  end;
             _check_all_games := false;
             _changed := _changed (MISSING_GAMES w) |}.
Proof.
  destruct w as [file memo lg evs [missing ids queue all changed]]. simpl.
  intros Hsees -> ->.
  set (wa := {| cache_file := file; path_cache_memo := memo; log := lg; events := evs;
                MISSING_GAMES := {| missing_game_ids := missing; _check_game_ids := Some pending;
                  _check_game_queue := queue; _check_all_games := false;
                  _changed := changed |} |}).
  destruct (get_path_cache_sees env wa cache) as (w1 & Hget & Hsees1 & Hfile & Hlog & Hev & Htr).
  { exact Hsees. }
  unfold _next_game_id, get_tracker, set_check_all_games, set_check_game_queue,
    check_game_ids_clear, set_check_game_ids, _notify_changed, set_changed, sleep, emit,
    get_tracker, set_tracker, mbind, M_bind, bind, mret, M_ret, ret, raise.
  simpl. fold wa. rewrite Hget, path_dict_list.
  destruct w1 as [file1 memo1 lg1 evs1 tracker1]. simpl in *. subst. simpl.
  rewrite ids_truthy_empty, andb_false_r. simpl.
  unfold sees, same_files in *. simpl in *.
  rewrite pop_fmap.
  destruct (Py.pop (elements (dom cache))) as [[game_id rest]|] eqn:Hpop; simpl;
    eexists; (split; [reflexivity|]); simpl; [done|].
  apply pop_nil_iff in Hpop. by rewrite Hpop.
Qed.

(** A full check: every key of the cache is checked. *)
Lemma fetch_loop_all env w cache (pending : gset string) fuel :
  sees env w cache →
  _check_all_games (MISSING_GAMES w) = true →
  _check_game_ids (MISSING_GAMES w) = Some pending →
  "" ∉ dom cache →
  size cache < fuel →
  ∃ w', _fetch_loop env fuel w = (Ok tt, w') ∧ same_files w w' ∧
        MISSING_GAMES w' =
          let state := checked_all env cache (elements (dom cache))
                         (missing_game_ids (MISSING_GAMES w), _changed (MISSING_GAMES w)) in
          {| missing_game_ids := state.1; _check_game_ids := Some ∅;
             _check_game_queue := []; _check_all_games := false; _changed := state.2 |}.
Proof.
  intros Hsees Hall Hids Hempty Hfuel.
  destruct (next_game_id_all env w cache pending Hsees Hall Hids)
    as (w1 & Hnext & Hsees1 & (Hfile1 & Hlog1 & Hev1) & Htr1).
  destruct fuel as [|fuel]; [lia|].
  destruct (Py.pop (elements (dom cache))) as [[game_id queue]|] eqn:Hpop.
  - assert (elements (dom cache) = queue ++ [game_id]) as Helements by by apply pop_snoc.
    assert (Forall (λ g, g ≠ "") (queue ++ [game_id])) as Hne.
    { rewrite <- Helements. apply Forall_forall. intros g Hg ->.
      by apply elem_of_elements in Hg. }
    apply Forall_app in Hne as [Hqueue Hid]. apply Forall_inv in Hid.
    destruct (check_game_id_sees env w1 cache game_id Hsees1)
      as (w2 & Hcheck & Hsees2 & (Hfile2 & Hlog2 & Hev2) & Htr2).
    destruct (fetch_loop_drain env cache queue fuel w2)
      as (w3 & Hloop & (Hfile3 & Hlog3 & Hev3) & Htr3).
    + done.
    + by rewrite Htr2, Htr1.
    + by rewrite Htr2, Htr1.
    + by rewrite Htr2, Htr1.
    + done.
    + rewrite <- size_dom in Hfuel. unfold size, set_size in Hfuel. simpl in Hfuel.
      rewrite Helements, length_app in Hfuel. simpl in Hfuel. lia.
    + exists w3. split.
      * simpl. unfold mbind, M_bind, bind. rewrite Hnext.
        destruct game_id as [|c rest]; [done|]. simpl. rewrite Hcheck. exact Hloop.
      * split; [unfold same_files; by rewrite Hfile3, Hlog3, Hev3, Hfile2, Hlog2, Hev2|].
        rewrite Htr3, Htr2, Htr1, Helements. unfold checked_all. simpl.
        rewrite foldr_app. simpl. by destruct (checked env cache game_id _).
  - exists w1. split.
    + simpl. unfold mbind, M_bind, bind. by rewrite Hnext.
    + split; [done|]. rewrite Htr1. apply pop_nil_iff in Hpop. rewrite Hpop. done.
Qed.

Lemma update_all_missing_idle w missing :
  MISSING_GAMES w = idle missing →
  ∃ w', update_all_missing w = (Ok tt, w') ∧
        cache_file w' = cache_file w ∧ path_cache_memo w' = path_cache_memo w ∧
        log w' = log w ∧
        events w' = events w ++ [EvAsyncCall 0] ∧
        MISSING_GAMES w' =
          {| missing_game_ids := missing; _check_game_ids := Some ∅;
             _check_game_queue := []; _check_all_games := true; _changed := false |}.
Proof.
  destruct w as [file memo lg evs tracker]. simpl. intros ->.
  unfold update_all_missing, update_missing, set_check_all_games, get_tracker,
    mbind, M_bind, bind. simpl. by eexists.
Qed.

(** X18.  A full check requested while the tracker is idle schedules a
    worker with no delay, and its pass checks every key of the path cache:
    afterwards the missing set holds the ids whose cached path is gone,
    and those it held before whose cached path does not exist (an id that
    left the cache stays); one notification if the set changed. *)
Theorem full_check_pass env w cache missing fuel initial_delay :
  sees env w cache →
  MISSING_GAMES w = idle missing →
  "" ∉ dom cache →
  size cache < fuel →
  ∃ w1 w2 missing',
    update_all_missing w = (Ok tt, w1) ∧
    _fetch env fuel initial_delay w1 = (Ok tt, w2) ∧
    MISSING_GAMES w2 = idle missing' ∧
    (∀ game_id,
       game_id ∈ missing' ↔
       path_gone env cache game_id ∨
       (game_id ∈ missing ∧ ¬ path_present env cache game_id)) ∧
    events w2 = events w ++ [EvAsyncCall 0; EvSleep initial_delay]
                  ++ (if bool_decide (missing' = missing) then [] else [EvFire]).
Proof.
  intros Hsees Hidle Hempty Hfuel.
  destruct (update_all_missing_idle w missing Hidle)
    as (w1 & Hupdate & Hfile1 & Hmemo1 & Hlog1 & Hev1 & Htr1).
  destruct (fetch_loop_all env (fetch_start initial_delay w1) cache ∅ fuel)
    as (w2 & Hloop & (Hfile2 & Hlog2 & Hev2) & Htr2).
  - eapply sees_same; [| |exact Hsees]; simpl; done.
  - simpl. by rewrite Htr1.
  - simpl. by rewrite Htr1.
  - done.
  - done.
  - destruct (fetch_cleanup w2) as (w3 & Hclean & Hfile3 & Hmemo3 & Hlog3 & Hev3 & Htr3).
    set (final := checked_all env cache (elements (dom cache)) (missing, false)) in *.
    exists w1, w3, final.1. split; [done|]. split.
    { rewrite fetch_unfold. eapply try_finally_ok; [|exact Hclean]. by apply try_except_ok. }
    simpl in Htr2. rewrite Htr1 in Htr2. simpl in Htr2. fold final in Htr2.
    split; [by rewrite Htr3, Htr2|].
    split.
    { intros g. unfold final, checked_all. rewrite checked_fold_elem.
      rewrite elem_of_elements, elem_of_dom. unfold path_gone, path_present.
      split.
      - intros [[_ ?] | [? Hn]]; [by left|]. right. split; [done|].
        intros (p & Hp & ?). apply Hn. split; [by eexists | by exists p].
      - intros [(p & Hp & ?) | [? Hn]]; [left; split; [by eexists | by exists p]|].
        right. split; [done|]. intros [_ ?]. by apply Hn. }
    rewrite Hev3, Hev2, Htr2. simpl. rewrite Hev1, <- !app_assoc. simpl.
    do 2 f_equal.
    pose proof (checked_fold_changed env cache (elements (dom cache)) missing) as Hchanged.
    unfold checked_all in final. fold final in Hchanged.
    destruct (final.2); case_bool_decide; naive_solver.
Qed.

Lemma pass_sound_refl env cache missing : pass_sound env cache missing missing.
Proof. intros g. auto. Qed.

Lemma pass_sound_trans env cache m1 m2 m3 :
  pass_sound env cache m1 m2 → pass_sound env cache m2 m3 → pass_sound env cache m1 m3.
Proof. intros H12 H23 g. specialize (H12 g). specialize (H23 g). naive_solver. Qed.

Lemma checked_sound env cache game_id state :
  pass_sound env cache state.1 (checked env cache game_id state).1.
Proof.
  intros g.
  destruct (checked_cases env cache game_id state)
    as [(Hp & -> & _) | [(Hg & -> & _) | (Hp & Hg & ->)]]; [| |auto].
  - set_unfold. destruct (decide (g = game_id)) as [->|]; naive_solver.
  - set_unfold. destruct (decide (g = game_id)) as [->|]; naive_solver.
Qed.

Lemma get_path_cache_frame env w r w' :
  get_path_cache env w = (r, w') →
  cache_file w' = cache_file w ∧ MISSING_GAMES w' = MISSING_GAMES w ∧
  ∀ cache, sees env w cache → sees env w' cache.
Proof.
  unfold get_path_cache, get_world, sees, mbind, M_bind, bind.
  destruct (path_cache_memo w) as [cached|] eqn:Hmemo.
  - intros [= <- <-]. by rewrite Hmemo.
  - destruct (cache_file w) as [text|] eqn:Hfile.
    + rewrite (read_path_cache_present env w text Hfile). unfold parsed.
      destruct (json_load env text) as [value|e] eqn:Hload; simpl.
      * intros [= <- <-]. simpl. split; [done|]. split; [done|].
        intros cache (text' & [= <-] & Hparsed). rewrite Hload in Hparsed. congruence.
      * destruct (is_JSONDecodeError e) eqn:He; simpl; intros [= <- <-]; simpl.
        -- split; [done|]. split; [done|].
           intros cache (text' & [= <-] & Hparsed).
           rewrite Hload, He in Hparsed. congruence.
        -- by rewrite Hmemo, Hfile.
    + rewrite (read_path_cache_missing env w Hfile).
      intros [= <- <-]. rewrite Hmemo, Hfile. done.
Qed.

Lemma check_game_id_frame env game_id w r w' :
  check_game_id env game_id w = (r, w') →
  cache_file w' = cache_file w ∧
  ∀ cache, sees env w cache →
    sees env w' cache ∧
    pass_sound env cache (missing_game_ids (MISSING_GAMES w))
      (missing_game_ids (MISSING_GAMES w')).
Proof.
  intros Hcheck. split.
  - revert Hcheck. unfold check_game_id, mbind, M_bind, bind.
    destruct (get_path_cache env w) as [r1 w1] eqn:Hget.
    apply get_path_cache_frame in Hget as (Hfile & _ & _). rewrite <- Hfile.
    destruct r1 as [cache| |]; [|by intros [= <- <-]..].
    destruct (py_get_pure cache game_id) as (r2 & -> & Hr2).
    destruct r2 as [path| |]; [|by intros [= <- <-]|done].
    destruct game_id as [| | | |game_id| |]; try by intros [= <- <-].
    destruct (opt_json_truthy path); [|by intros [= <- <-]].
    destruct (os_path_exists_pure env (default JNull path)) as (r3 & -> & Hr3).
    destruct r3 as [found| |]; [|by intros [= <- <-]|done].
    destruct w1 as [file memo lg evs [missing ids queue all changed]].
    unfold get_tracker, set_missing_game_ids, set_changed, get_tracker, set_tracker,
      mbind, M_bind, bind, mret, M_ret, ret. simpl.
    repeat case_match; intros [= <- <-]; done.
  - intros cache Hsees.
    destruct (get_path_cache_sees env w cache Hsees)
      as (w1 & Hget & Hsees1 & _ & _ & _ & Htr).
    destruct game_id as [| | | |game_id| |];
      try (revert Hcheck; unfold check_game_id, mbind, M_bind, bind; rewrite Hget;
           unfold py_get, path_dict, ret, raise, mret, M_ret, ret; intros [= <- <-];
           rewrite Htr; split; [done | apply pass_sound_refl]).
    destruct (check_game_id_sees env w cache game_id Hsees) as (w2 & Hcheck2 & Hsees2 & _ & Htr2).
    rewrite Hcheck in Hcheck2. injection Hcheck2 as _ <-. split; [done|].
    rewrite Htr2. unfold tracker_checked. simpl.
    apply (checked_sound env cache game_id
             (missing_game_ids (MISSING_GAMES w), _changed (MISSING_GAMES w))).
Qed.

Lemma next_game_id_frame env w r w' :
  _next_game_id env w = (r, w') →
  cache_file w' = cache_file w ∧
  missing_game_ids (MISSING_GAMES w') = missing_game_ids (MISSING_GAMES w) ∧
  ∀ cache, sees env w cache → sees env w' cache.
Proof.
  destruct w as [file memo lg evs [missing ids queue all changed]].
  unfold _next_game_id, get_tracker, set_check_all_games, set_check_game_queue,
    check_game_ids_clear, set_check_game_ids, _notify_changed, set_changed, sleep, emit,
    get_tracker, set_tracker, mbind, M_bind, bind, mret, M_ret, ret, raise.
  simpl. destruct all.
  - match goal with |- context [get_path_cache env ?w0] => set (wa := w0) end.
    destruct (get_path_cache env wa) as [r1 w1] eqn:Hget.
    apply get_path_cache_frame in Hget as (Hfile & Htr & Hsees).
    destruct w1 as [file1 memo1 lg1 evs1 tracker1]. simpl in *. subst file1 tracker1.
    assert (∀ cache tr tr',
      sees env {| cache_file := file; path_cache_memo := memo; log := lg; events := evs;
                  MISSING_GAMES := tr |} cache →
      sees env {| cache_file := file; path_cache_memo := memo1; log := lg1; events := evs1;
                  MISSING_GAMES := tr' |} cache) as Hsees'.
    { intros cache tr tr' H. apply (Hsees cache H). }
    destruct r1 as [cache| |]; [|intros [= <- <-]; split; [done|]; split; [done|]; eauto..].
    destruct (py_list_pure cache) as (r2 & -> & _ & _).
    destruct r2 as [items| |]; [|intros [= <- <-]; split; [done|]; split; [done|]; eauto..].
    destruct ids as [pending|]; simpl;
      [|intros [= <- <-]; split; [done|]; split; [done|]; eauto].
    rewrite ids_truthy_empty, andb_false_r. simpl.
    destruct (Py.pop items) as [[x rest]|]; intros [= <- <-];
      (split; [done|]); (split; [done|]); eauto.
  - destruct queue as [|y queue]; simpl.
    + destruct ids as [pending|]; [destruct (decide (pending = ∅)) as [->|Hne]|].
      * rewrite ids_truthy_empty. simpl. by intros [= <- <-].
      * rewrite ids_truthy_nonempty by done.
        destruct changed; simpl;
          (destruct (Py.pop (JStr <$> elements pending)) as [[x rest]|];
           intros [= <- <-]; done).
      * unfold ids_truthy. simpl. by intros [= <- <-].
    + destruct (match Py.pop queue with
                | Some (y0, rest') => Some (y0, y :: rest')
                | None => Some (y, [])
                end) as [[x rest]|]; intros [= <- <-]; done.
Qed.

Lemma fetch_loop_frame env :
  ∀ fuel w r w',
    _fetch_loop env fuel w = (r, w') →
    cache_file w' = cache_file w ∧
    ∀ cache, sees env w cache →
      sees env w' cache ∧
      pass_sound env cache (missing_game_ids (MISSING_GAMES w))
        (missing_game_ids (MISSING_GAMES w')).
Proof.
  induction fuel as [|fuel IH]; intros w r w'; simpl.
  - intros [= <- <-]. split; [done|]. intros cache ?. split; [done|]. apply pass_sound_refl.
  - unfold mbind, M_bind, bind.
    destruct (_next_game_id env w) as [r1 w1] eqn:Hnext.
    apply next_game_id_frame in Hnext as (Hfile1 & Hmissing1 & Hsees1).
    rewrite <- Hfile1, <- Hmissing1.
    assert (∀ cache, sees env w cache →
              sees env w1 cache ∧
              pass_sound env cache (missing_game_ids (MISSING_GAMES w1))
                (missing_game_ids (MISSING_GAMES w1))) as Hstay.
    { intros cache ?. split; [auto | apply pass_sound_refl]. }
    destruct r1 as [game_id| |]; [|by intros [= <- <-]..].
    destruct (negb (opt_json_truthy game_id)); [by intros [= <- <-]|].
    destruct (check_game_id env (default JNull game_id) w1) as [r2 w2] eqn:Hcheck.
    apply check_game_id_frame in Hcheck as (Hfile2 & Hsound2).
    destruct r2 as [[]| |].
    + intros Hloop. apply IH in Hloop as (Hfile3 & Hsound3).
      split; [congruence|]. intros cache Hsees.
      destruct (Hsound2 cache (Hsees1 cache Hsees)) as [Hsees2 Hpass2].
      destruct (Hsound3 cache Hsees2) as [Hsees3 Hpass3].
      split; [done|]. by eapply pass_sound_trans.
    + intros [= <- <-]. split; [done|]. intros cache Hsees. by apply Hsound2, Hsees1.
    + intros [= <- <-]. split; [done|]. intros cache Hsees. by apply Hsound2, Hsees1.
Qed.

Lemma fetch_frame env fuel initial_delay w :
  cache_file (_fetch env fuel initial_delay w).2 = cache_file w ∧
  ∀ cache, sees env w cache →
    pass_sound env cache (missing_game_ids (MISSING_GAMES w))
      (missing_game_ids (MISSING_GAMES (_fetch env fuel initial_delay w).2)).
Proof.
  rewrite fetch_unfold. unfold try_finally, try_except.
  destruct (_fetch_loop env fuel (fetch_start initial_delay w)) as [r w1] eqn:Hloop.
  apply fetch_loop_frame in Hloop as (Hfile1 & Hsound1). simpl in Hfile1.
  assert (∀ cache, sees env w cache →
            pass_sound env cache (missing_game_ids (MISSING_GAMES w))
              (missing_game_ids (MISSING_GAMES w1))) as Hsound.
  { intros cache Hsees. apply Hsound1. eapply sees_same; [| |exact Hsees]; done. }
  destruct r as [[]| e |].
  - destruct (fetch_cleanup w1) as (w2 & -> & Hfile2 & _ & _ & _ & Htr2). simpl.
    rewrite Hfile2, Htr2. done.
  - set (w1' := add_log [LogRecord EXCEPTION "Unable to detect missing games: %s" [ArgExn e]] w1).
    change (if is_Exception e
            then logger EXCEPTION "Unable to detect missing games: %s" [ArgExn e] w1
            else (Raise e, w1))
      with (Ok tt, w1').
    destruct (fetch_cleanup w1') as (w2 & -> & Hfile2 & _ & _ & _ & Htr2). simpl.
    rewrite Hfile2, Htr2. done.
  - done.
Qed.

(** X19.  A pass of the worker never writes the cache file, whatever the
    state of the tracker and however the pass ends. *)
Theorem fetch_keeps_cache_file env fuel initial_delay w :
  cache_file (_fetch env fuel initial_delay w).2 = cache_file w.
Proof. apply fetch_frame. Qed.

(** X20.  Whatever the state of the tracker and however the pass ends: an
    id enters the missing set only if its cached path does not exist, and
    leaves it only if its cached path exists. *)
Theorem fetch_pass_sound env fuel initial_delay w cache :
  sees env w cache →
  pass_sound env cache (missing_game_ids (MISSING_GAMES w))
    (missing_game_ids (MISSING_GAMES (_fetch env fuel initial_delay w).2)).
Proof. intros. by apply fetch_frame. Qed.






(** X22.  A full check requested during a pass starts no second worker and
    causes no stall: the pass drops what was queued and pending and checks
    every key of the path cache instead. *)
Theorem full_check_during_pass env w cache missing (pending : gset string) queue changed fuel :
  sees env w cache →
  MISSING_GAMES w = draining missing pending queue changed →
  "" ∉ dom cache →
  size cache < fuel →
  ∃ w1 w2 missing' changed',
    update_all_missing w = (Ok tt, w1) ∧
    events w1 = events w ∧
    _fetch_loop env fuel w1 = (Ok tt, w2) ∧
    events w2 = events w ∧
    MISSING_GAMES w2 = draining missing' ∅ [] changed' ∧
    (∀ game_id,
       game_id ∈ missing' ↔
       path_gone env cache game_id ∨
       (game_id ∈ missing ∧ ¬ path_present env cache game_id)).
Proof.
  intros Hsees Htracker Hempty Hfuel.
  assert (∃ w1 pending',
            update_all_missing w = (Ok tt, w1) ∧
            cache_file w1 = cache_file w ∧ path_cache_memo w1 = path_cache_memo w ∧
            events w1 = events w ∧
            MISSING_GAMES w1 =
              {| missing_game_ids := missing; _check_game_ids := Some pending';
                 _check_game_queue := JStr <$> queue; _check_all_games := true;
                 _changed := changed |})
    as (w1 & pending' & Hupdate & Hfile1 & Hmemo1 & Hev1 & Htr1).
  { destruct w as [file memo lg evs tracker]. simpl in *. subst tracker.
    unfold update_all_missing, update_missing, draining, set_check_all_games, get_tracker,
      set_check_game_ids, get_tracker, set_tracker, mbind, M_bind, bind, mret, M_ret, ret.
    simpl. destruct (decide (pending = ∅)) as [->|Hpending].
    - rewrite ids_truthy_empty. simpl. by eexists _, _.
    - rewrite ids_truthy_nonempty by done. simpl. by eexists _, _. }
  destruct (fetch_loop_all env w1 cache pending' fuel)
    as (w2 & Hloop & (Hfile2 & Hlog2 & Hev2) & Htr2); try done.
  - by eapply sees_same.
  - by rewrite Htr1.
  - by rewrite Htr1.
  - eexists w1, w2, _, _. split; [done|]. split; [done|]. split; [done|].
    split; [by rewrite Hev2|]. split; [exact Htr2|].
    intros g. rewrite Htr1. simpl. unfold checked_all. rewrite checked_fold_elem.
    rewrite elem_of_elements, elem_of_dom. unfold path_gone, path_present.
    split.
    + intros [[_ ?] | [? Hn]]; [by left|]. right. split; [done|].
      intros (p & Hp & ?). apply Hn. split; [by eexists | by exists p].
    + intros [(p & Hp & ?) | [? Hn]]; [left; split; [by eexists | by exists p]|].
      right. split; [done|]. intros [_ ?]. by apply Hn.
Qed.

(** X23.  An empty id, or any other value that is false, ends the loop at
    once: what was queued before it is left in the queue, unchecked. *)
Theorem empty_id_ends_pass env w queue game_id fuel :
  _check_all_games (MISSING_GAMES w) = false →
  _check_game_queue (MISSING_GAMES w) = queue ++ [game_id] →
  json_truthy game_id = false →
  ∃ w', _fetch_loop env (S fuel) w = (Ok tt, w') ∧
        path_cache_memo w' = path_cache_memo w ∧ same_files w w' ∧
        MISSING_GAMES w' =
          {| missing_game_ids := missing_game_ids (MISSING_GAMES w);
             _check_game_ids := _check_game_ids (MISSING_GAMES w);
             _check_game_queue := queue;
             _check_all_games := false;
             _changed := _changed (MISSING_GAMES w) |}.
Proof.
  intros Hall Hqueue Hfalse.
  destruct (next_game_id_pop env w queue game_id Hall Hqueue) as (w1 & Hnext & Hrest).
  exists w1. split; [|done]. simpl. unfold mbind, M_bind, bind. rewrite Hnext. simpl.
  by rewrite Hfalse.
Qed.

(** ** Cache files that do not hold a JSON object *)

(** A lookup finds a value only for a [str] key of a [dict]; this is why
    [check_game_id] tests the missing set for a [str] id only. *)
Lemma py_get_found container key w path w' :
  py_get container key w = (Ok (Some path), w') →
  ∃ members game_id, container = JDict members ∧ key = JStr game_id ∧
                     members !! game_id = Some path.
Proof.
  destruct container as [| | | | | |members]; try done.
  destruct key as [| | | |game_id| |]; try done.
  unfold py_get, ret. intros [= Hpath <-]. by exists members, game_id.
Qed.

(** X25.  With a cache file that holds JSON other than an object (a list,
    a string, a number, true, false or null), adding a game with a
    derivable path raises TypeError and leaves the file as it was. *)
Theorem add_to_path_cache_not_an_object env game w text value path :
  cache_file w = Some text →
  json_load env text = inl value →
  (∀ members, value ≠ JDict members) →
  derives env game path → path ≠ "" →
  ∃ w1, add_to_path_cache env game w = (Raise TypeError, w1) ∧
        cache_file w1 = Some text ∧ path_cache_memo w1 = path_cache_memo w.
Proof.
  intros Hfile Hload Hvalue Hpath Hne.
  destruct (get_path_from_config_add_log env game) as (r & records & Hpure).
  specialize (Hpath w). rewrite Hpure in Hpath. simpl in Hpath. subst r.
  unfold add_to_path_cache, logger, mbind, M_bind, bind.
  rewrite Hpure. destruct path as [|c path]; [done|]. simpl.
  rewrite (read_path_cache_present env _ text) by done. rewrite Hload. simpl.
  destruct value as [| | | | | |members]; try by eexists.
  by destruct (Hvalue members).
Qed.

(** X26.  When what [get_path_cache] returns is not a JSON object, checking
    an id raises AttributeError and leaves the tracker as it was. *)
Theorem check_game_id_not_an_object env w value w1 game_id :
  get_path_cache env w = (Ok value, w1) →
  (∀ members, value ≠ JDict members) →
  check_game_id env game_id w = (Raise AttributeError, w1) ∧
  MISSING_GAMES w1 = MISSING_GAMES w.
Proof.
  intros Hget Hvalue. unfold check_game_id, mbind, M_bind, bind. rewrite Hget.
  apply get_path_cache_result in Hget as (_ & Htr & _).
  destruct value as [| | | | | |members]; try done.
  by destruct (Hvalue members).
Qed.

(** ** The further properties on the concrete environment *)

Lemma sees_two_games tracker : sees Demo.env (Sample.tracking tracker) Sample.two_games.
Proof. eexists. split; [reflexivity | vm_compute; reflexivity]. Qed.

Lemma get_game_slugs_and_folders_spec_witness :
  ∃ slugs_map,
    get_game_slugs_and_folders Demo.env "/games" Demo.fresh = (Ok slugs_map, Demo.fresh) ∧
    slugs_map !! "hollow-knight" = Some "hollow-knight".
Proof.
  destruct (proj1 (get_game_slugs_and_folders_spec Demo.env "/games" Demo.fresh)
              ["hollow-knight"; "unknown-game"] eq_refl)
    as (slugs_map & Hrun & _ & Hlast).
  exists slugs_map. split; [exact Hrun|].
  apply (Hlast [] "hollow-knight" ["unknown-game"]).
  - reflexivity.
  - reflexivity.
  - intros other Hin _. apply list_elem_of_singleton in Hin as ->. discriminate.
Defined.

Lemma find_game_folder_spec_witness :
  let slugs_map := collect_game_folders Demo.env "/games" ["hollow-knight"; "unknown-game"] in
  ∃ before slug after,
    ["hollow-knight"] = before ++ slug :: after ∧
    Forall (candidate_fails Demo.env "/games" slugs_map) before ∧
    candidate_finds Demo.env "/games" slugs_map slug "/games/hollow-knight".
Proof.
  intros slugs_map.
  apply (proj1 (find_game_folder_spec Demo.env "/games" Sample.hollow_knight slugs_map)).
  vm_compute. reflexivity.
Defined.

Lemma detect_game_from_installer_no_folder_witness :
  detect_game_from_installer Demo.env None Demo.hollow_knight_installer Demo.fresh
  = (Raise TypeError, Demo.fresh).
Proof.
  exact (proj2 (detect_game_from_installer_no_folder Demo.env Demo.hollow_knight_installer
                  Demo.fresh) _ eq_refl).
Defined.

Lemma get_used_directories_spec_witness :
  "/roms" ∈ get_used_directories Demo.env.
Proof.
  apply (proj2 (get_used_directories_spec Demo.env "/roms")).
  split; [discriminate|]. exists Demo.g1. split; [left | reflexivity].
Defined.

Lemma scan_directory_partition_witness :
  let installed_map : gmap string string := {[ "hollow-knight" := "hollow-knight" ]} in
  let missing_map : gmap string string := {[ "unknown-game" := "unknown-game" ]} in
  ∃ slugs_map,
    get_game_slugs_and_folders Demo.env "/games" Demo.fresh = (Ok slugs_map, Demo.fresh) ∧
    installed_map ∪ missing_map = slugs_map ∧
    installed_map ##ₘ missing_map ∧
    ∀ slug, slug ∈ dom installed_map →
      ∃ api_game, api_game ∈ scanned_api_games Demo.env slugs_map ∧ api_slug api_game = slug.
Proof.
  intros installed_map missing_map.
  apply (scan_directory_partition Demo.env "/games" Demo.fresh installed_map missing_map
           (scan_directory Demo.env "/games" Demo.fresh).2).
  vm_compute. reflexivity.
Defined.

Lemma scan_directory_all_used_witness :
  scan_directory Sample.env_with_hollow_knight "/games" Demo.fresh
  = (Ok ({[ "hollow-knight" := "hollow-knight" ]}, {[ "unknown-game" := "unknown-game" ]}),
     Demo.fresh).
Proof.
  set (slugs_map := collect_game_folders Sample.env_with_hollow_knight "/games"
                      ["hollow-knight"; "unknown-game"]).
  assert (scanned_api_games Sample.env_with_hollow_knight slugs_map = [Sample.hollow_knight])
    as Hgames by (vm_compute; reflexivity).
  pose proof (scan_directory_all_used Sample.env_with_hollow_knight "/games" Demo.fresh
                slugs_map eq_refl) as H.
  rewrite Hgames in H. rewrite H.
  - vm_compute. reflexivity.
  - constructor; [vm_compute; reflexivity | constructor].
Defined.

Lemma scan_directory_unlistable_witness :
  scan_directory Demo.env "/nowhere" Demo.fresh = (Raise FileNotFoundError, Demo.fresh) ∧
  scan_directory Demo.env "/roms/g1.iso" Demo.fresh = (Raise NotADirectoryError, Demo.fresh).
Proof.
  split.
  - apply (scan_directory_unlistable Demo.env "/nowhere" Demo.fresh ENOENT). reflexivity.
  - apply (scan_directory_unlistable Demo.env "/roms/g1.iso" Demo.fresh ENOTDIR). reflexivity.
Defined.

Lemma get_game_paths_spec_witness :
  (∀ id path, Sample.two_games !! id = Some path →
     ∃ game, game ∈ get_games Demo.env ∧ game_id game = id ∧ cacheable Demo.env game path) ∧
  (∀ game path, game ∈ get_games Demo.env → cacheable Demo.env game path →
     game_id game ∈ dom Sample.two_games).
Proof.
  apply (get_game_paths_spec Demo.env Demo.fresh Sample.two_games Demo.fresh).
  vm_compute. reflexivity.
Defined.

Lemma build_path_cache_rebuilds_witness :
  ∃ w1, build_path_cache Demo.env true (Demo.with_file "{}") = (Ok tt, w1) ∧
        cache_file w1 = Some (json_dump Demo.env (path_dict Sample.two_games)) ∧
        path_cache_memo w1 = None ∧
        MISSING_GAMES w1 = MISSING_GAMES (Demo.with_file "{}") ∧
        events w1 = events (Demo.with_file "{}") ∧
        (round_trips Demo.env (path_dict Sample.two_games) →
         ∃ w2, get_path_cache Demo.env w1 = (Ok (path_dict Sample.two_games), w2)).
Proof.
  apply (build_path_cache_rebuilds Demo.env true (Demo.with_file "{}") Sample.two_games).
  - reflexivity.
  - vm_compute. reflexivity.
Defined.

Lemma add_to_path_cache_updates_witness :
  ∃ w1 w2,
    add_to_path_cache Demo.env Demo.g1 (Demo.with_file "{}") = (Ok tt, w1) ∧
    get_path_cache Demo.env w1 = (Ok (JDict (<[ "g1" := JStr "/roms/g1.iso" ]> ∅)), w2) ∧
    MISSING_GAMES w1 = MISSING_GAMES (Demo.with_file "{}") ∧
    events w1 = events (Demo.with_file "{}").
Proof.
  apply (add_to_path_cache_updates Demo.env Demo.g1 (Demo.with_file "{}") ∅ "/roms/g1.iso").
  - exists "{}". split; [reflexivity | vm_compute; reflexivity].
  - apply (get_path_from_config_derives Demo.env Demo.g1 Demo.fresh). reflexivity.
  - discriminate.
  - vm_compute. reflexivity.
Defined.

Lemma remove_from_path_cache_deletes_witness :
  ∃ w1 w2,
    remove_from_path_cache Demo.env Demo.g1 (Sample.tracking MissingGames_init) = (Ok tt, w1) ∧
    get_path_cache Demo.env w1
      = (Ok (JDict (delete "g1" (JStr <$> Sample.two_games))), w2) ∧
    MISSING_GAMES w1 = MissingGames_init ∧ events w1 = [].
Proof.
  apply (remove_from_path_cache_deletes Demo.env Demo.g1 (Sample.tracking MissingGames_init)
           (JStr <$> Sample.two_games)).
  - exists (Demo.dumps (path_dict Sample.two_games)).
    split; [reflexivity | vm_compute; reflexivity].
  - apply elem_of_dom. exists (JStr "/roms/g1.iso"). vm_compute. reflexivity.
  - vm_compute. reflexivity.
Defined.

Lemma add_to_path_cache_without_path_witness :
  ∃ records, add_to_path_cache Demo.env Sample.pathless Demo.fresh
             = (Ok tt, add_log records Demo.fresh).
Proof.
  apply (add_to_path_cache_without_path Demo.env Sample.pathless Demo.fresh).
  apply (get_path_from_config_derives Demo.env Sample.pathless Demo.fresh). reflexivity.
Defined.

Lemma remove_from_path_cache_unknown_witness :
  ∃ records, remove_from_path_cache Demo.env Sample.pathless (Sample.tracking MissingGames_init)
             = (Ok tt, add_log records (Sample.tracking MissingGames_init)).
Proof.
  apply (remove_from_path_cache_unknown Demo.env Sample.pathless
           (Sample.tracking MissingGames_init) (JStr <$> Sample.two_games)).
  - exists (Demo.dumps (path_dict Sample.two_games)).
    split; [reflexivity | vm_compute; reflexivity].
  - intros Hin. apply elem_of_dom in Hin as [path Hpath]. vm_compute in Hpath. discriminate.
Defined.

Lemma get_path_from_config_no_path_witness :
  get_path_from_config Demo.env Sample.pathless Demo.fresh
  = (Ok "", add_log [LogRecord WARNING "No path found in %s" [ArgConfig "nopath"]] Demo.fresh).
Proof.
  apply (get_path_from_config_no_path Demo.env Sample.pathless {[ "args" := CStr "-fullscreen" ]}).
  - reflexivity.
  - intros [H _]. discriminate H.
  - repeat (constructor; [left; split; [discriminate | left; reflexivity] |]).
    constructor; [|constructor]. right. split; [reflexivity | left; reflexivity].
Defined.

Lemma get_path_from_config_absolute_witness :
  Py.startswith "/roms/g1.iso" "/" = true.
Proof.
  apply (get_path_from_config_absolute Demo.env Demo.g1 Demo.fresh "/roms/g1.iso" Demo.fresh).
  - reflexivity.
  - reflexivity.
  - discriminate.
Defined.

Lemma two_games_no_empty_id : "" ∉ dom Sample.two_games.
Proof. intros Hin. apply elem_of_dom in Hin as [path Hpath]. vm_compute in Hpath. discriminate. Qed.

Lemma full_check_pass_witness :
  ∃ w1 w2 missing',
    update_all_missing (Sample.tracking (idle ∅)) = (Ok tt, w1) ∧
    _fetch Demo.env 3 0 w1 = (Ok tt, w2) ∧
    MISSING_GAMES w2 = idle missing' ∧
    (∀ game_id,
       game_id ∈ missing' ↔
       path_gone Demo.env Sample.two_games game_id ∨
       (game_id ∈ (∅ : gset string) ∧ ¬ path_present Demo.env Sample.two_games game_id)) ∧
    events w2 = events (Sample.tracking (idle ∅)) ++ [EvAsyncCall 0; EvSleep 0]
                  ++ (if bool_decide (missing' = ∅) then [] else [EvFire]).
Proof.
  apply (full_check_pass Demo.env (Sample.tracking (idle ∅)) Sample.two_games ∅ 3 0).
  - apply sees_two_games.
  - reflexivity.
  - apply two_games_no_empty_id.
  - vm_compute. lia.
Defined.

Lemma fetch_pass_sound_witness :
  sees Demo.env (Sample.tracking (draining ∅ ∅ ["g1"; "g2"] false)) Sample.two_games ∧
  pass_sound Demo.env Sample.two_games ∅
    (missing_game_ids
       (MISSING_GAMES (_fetch Demo.env 3 0
                         (Sample.tracking (draining ∅ ∅ ["g1"; "g2"] false))).2)).
Proof.
  split; [apply sees_two_games|].
  apply (fetch_pass_sound Demo.env 3 0 (Sample.tracking (draining ∅ ∅ ["g1"; "g2"] false))
           Sample.two_games).
  apply sees_two_games.
Defined.


Lemma full_check_during_pass_witness :
  let w := Sample.tracking (draining ∅ {[ "g9" ]} ["g1"] false) in
  ∃ w1 w2 missing' changed',
    update_all_missing w = (Ok tt, w1) ∧
    events w1 = events w ∧
    _fetch_loop Demo.env 3 w1 = (Ok tt, w2) ∧
    events w2 = events w ∧
    MISSING_GAMES w2 = draining missing' ∅ [] changed' ∧
    (∀ game_id,
       game_id ∈ missing' ↔
       path_gone Demo.env Sample.two_games game_id ∨
       (game_id ∈ (∅ : gset string) ∧ ¬ path_present Demo.env Sample.two_games game_id)).
Proof.
  intros w.
  apply (full_check_during_pass Demo.env w Sample.two_games ∅ {[ "g9" ]} ["g1"] false 3).
  - apply sees_two_games.
  - reflexivity.
  - apply two_games_no_empty_id.
  - vm_compute. lia.
Defined.

Lemma add_to_path_cache_not_an_object_witness :
  ∃ w1, add_to_path_cache Demo.env Demo.g1 (Demo.with_file "[]") = (Raise TypeError, w1) ∧
        cache_file w1 = Some "[]" ∧ path_cache_memo w1 = None.
Proof.
  apply (add_to_path_cache_not_an_object Demo.env Demo.g1 (Demo.with_file "[]") "[]"
           (JList []) "/roms/g1.iso").
  - reflexivity.
  - reflexivity.
  - discriminate.
  - apply (get_path_from_config_derives Demo.env Demo.g1 Demo.fresh). reflexivity.
  - discriminate.
Defined.

Lemma check_game_id_not_an_object_witness :
  let w := Demo.with_file "[]" in
  let w1 := {| cache_file := Some "[]"; path_cache_memo := Some (JList []); log := [];
               events := []; MISSING_GAMES := MissingGames_init |} in
  check_game_id Demo.env (JStr "g1") w = (Raise AttributeError, w1) ∧
  MISSING_GAMES w1 = MISSING_GAMES w.
Proof.
  intros w w1.
  apply (check_game_id_not_an_object Demo.env w (JList []) w1 (JStr "g1")).
  - reflexivity.
  - discriminate.
Defined.

Lemma empty_id_ends_pass_witness :
  let w := Sample.tracking (draining ∅ ∅ ["g2"; ""] false) in
  ∃ w', _fetch_loop Demo.env 1 w = (Ok tt, w') ∧
        path_cache_memo w' = path_cache_memo w ∧ same_files w w' ∧
        MISSING_GAMES w' =
          {| missing_game_ids := ∅; _check_game_ids := Some ∅;
             _check_game_queue := [JStr "g2"]; _check_all_games := false;
             _changed := false |}.
Proof.
  intros w. apply (empty_id_ends_pass Demo.env w [JStr "g2"] (JStr "") 0); reflexivity.
Defined.

(** Scenario B and a full check give the same answer on the two-game cache. *)
Example full_check_finds_g2 :
  missing_game_ids
    (MISSING_GAMES
       (_fetch Demo.env 3 0 (update_all_missing (Sample.tracking (idle ∅))).2).2)
  = {[ "g2" ]}.
Proof. vm_compute. reflexivity. Qed.

